(** * DATIM metadata synchronisation: the MER transformer and the I-MAP object

    A shallow embedding of [datimsyncmer.py] (class [DatimSyncMer], method
    [dhis2diff_mer]) and of [datim/datimimap.py] (classes [DatimImap] and
    [DatimImapFactory]), with the properties of both that the design
    document states.

    Python dictionaries keyed by strings are finite maps ([gmap string]);
    JSON objects of the DHIS2 export are records whose fields are optional,
    an absent field being what a [d['k']] access fails on, and whose values
    have the types the DHIS2 query returns (strings, objects, arrays);
    methods that mutate [self] are functions from the object state to an
    outcome and the object state afterwards, so that what an exception
    leaves behind can be stated.  Opening and parsing the export file and
    logging are left out: [dhis2diff_mer] starts from the parsed
    document. *)

From Stdlib Require Import Ascii.
From stdpp Require Import gmap strings list fin_maps pretty.

(** ** Python exceptions and the state-and-exception monad *)

Inductive Exn : Type :=
| Exception (msg : string)
| KeyError (key : string)
| TypeError (msg : string).

(** The name of the class of an exception, Python's [type(e).__name__]. *)
Definition exn_class (e : Exn) : string :=
  match e with
  | Exception _ => "Exception"
  | KeyError _ => "KeyError"
  | TypeError _ => "TypeError"
  end.

(** A computation over a mutable object of type [S]: it either returns a
    value or raises, and in both cases leaves an object state behind. *)
Definition Py (S A : Type) : Type := S → (Exn + A) * S.

Definition ret {S A} (a : A) : Py S A := λ s, (inr a, s).

Definition raise {S A} (e : Exn) : Py S A := λ s, (inl e, s).

Definition bind {S A B} (m : Py S A) (f : A → Py S B) : Py S B :=
  λ s, match m s with
       | (inr a, s') => f a s'
       | (inl e, s') => (inl e, s')
       end.

Definition get {S} : Py S S := λ s, (inr s, s).

Definition modify {S} (f : S → S) : Py S unit := λ s, (inr tt, f s).

Notation "'let!' x := m 'in' k" := (bind m (λ x, k))
  (at level 10, x pattern, m at level 100, k at level 200,
   format "'[v' 'let!'  x  :=  m  'in' '/' k ']'").

(** [d[key]] on a JSON object whose field [key] may be absent. *)
Definition getitem {S A} (field : option A) (key : string) : Py S A :=
  match field with
  | Some a => ret a
  | None => raise (KeyError key)
  end.

(** [for x in xs: acc = body(acc, x)], the loop-carried locals being [acc]. *)
Fixpoint for_each {S A B} (body : B → A → Py S B) (xs : list A) (acc : B)
  : Py S B :=
  match xs with
  | [] => ret acc
  | x :: rest => let! acc' := body acc x in for_each body rest acc'
  end.

(** Triples with an exceptional postcondition: from a state in [P], a
    normal return lands in [Q], a raise in [E]. *)
Definition hoare {S A} (P : S → Prop) (m : Py S A)
    (Q : A → S → Prop) (E : Exn → S → Prop) : Prop :=
  ∀ s, P s →
    match m s with
    | (inr a, s') => Q a s'
    | (inl e, s') => E e s'
    end.

(** ** [datim/datimimap.py] *)

Module DatimImap.

(** A row of an I-MAP: a dictionary from column name to cell. *)
Abbreviation Row := (gmap string string).

Definition IMAP_FIELD_NAMES : list string :=
  [ "DATIM_Indicator_Category";
    "DATIM_Indicator_ID";
    "DATIM_Disag_ID";
    "DATIM_Disag_Name";
    "Operation";
    "MOH_Indicator_ID";
    "MOH_Indicator_Name";
    "MOH_Disag_ID";
    "MOH_Disag_Name" ].

(** What a caller can pass as [imap_data]: a [csv.DictReader] (an iterator
    over rows), a list of rows, [None], a tuple, or any other value; of the
    last two only the [%s] renderings matter, of the items for a tuple.
    The last three take the [else] branch of [set_imap_data]. *)
Inductive ImapArg : Type :=
| ArgDictReader (rows : list Row)
| ArgList (rows : list Row)
| ArgNone
| ArgTuple (items_shown : list string)
| ArgOther (shown : string).

(** The message of the exception of [set_imap_data], [shown] being the
    [%s] rendering of the rejected value. *)
Definition cannot_set_msg (shown : string) : string :=
  "Cannot set I-MAP data with '" +:+ shown +:+ "'".

(** ["Cannot set I-MAP data with '%s'" % imap_data] when [imap_data] is a
    tuple: [%] takes the tuple as its argument list, and fails unless it
    has exactly one item. *)
Definition cannot_set_tuple (items_shown : list string) : Exn :=
  match items_shown with
  | [] => TypeError "not enough arguments for format string"
  | [item] => Exception (cannot_set_msg item)
  | _ => TypeError "not all arguments converted during string formatting"
  end.

(** The attributes of a [DatimImap] object; [None] in [__imap_data] is
    Python's [None], [Some rows] a list. *)
Record t : Type := mk {
  country_code : string;
  country_org : string;
  period : string;
  __imap_data : option (list Row);
}.

Definition with_imap_data (d : option (list Row)) (self : t) : t :=
  {| country_code := country_code self;
     country_org := country_org self;
     period := period self;
     __imap_data := d |}.

(** The [for row in imap_data: self.__imap_data.append(row)] loop of the
    [csv.DictReader] branch. *)
Definition append_row (_ : unit) (row : Row) : Py t unit :=
  modify (λ self, with_imap_data (Some (default [] (__imap_data self) ++ [row])) self).

Definition set_imap_data (arg : ImapArg) : Py t unit :=
  match arg with
  | ArgDictReader rows =>
      let! _ := modify (with_imap_data (Some [])) in
      for_each append_row rows tt
  | ArgList rows => modify (with_imap_data (Some rows))
  | ArgNone => raise (Exception (cannot_set_msg "None"))
  | ArgTuple items_shown => raise (cannot_set_tuple items_shown)
  | ArgOther shown => raise (Exception (cannot_set_msg shown))
  end.

(** [DatimImap.__init__]: the outcome of the constructor and the object it
    was building. *)
Definition __init__ (country_code country_org period : string) (arg : ImapArg)
  : (Exn + unit) * t :=
  set_imap_data arg
    {| country_code := country_code; country_org := country_org;
       period := period; __imap_data := None |}.

Definition missing_field_msg (field_name : string) (line_number : nat) : string :=
  "Missing field '" +:+ field_name +:+ "' on row " +:+ pretty line_number
  +:+ " of input file".

(** The two nested loops of [is_valid]; [Some r] means the method left the
    loop with outcome [r], [None] that the loop ran to its end. *)
Fixpoint check_fields (throw_exception_on_error : bool) (row : Row)
    (line_number : nat) (fields : list string) : option (Exn + bool) :=
  match fields with
  | [] => None
  | field_name :: rest =>
      match row !! field_name with
      | None =>
          if throw_exception_on_error
          then Some (inl (Exception (missing_field_msg field_name line_number)))
          else Some (inr false)
      | Some _ => check_fields throw_exception_on_error row line_number rest
      end
  end.

Fixpoint check_rows (throw_exception_on_error : bool) (rows : list Row)
    (line_number : nat) : option (Exn + bool) :=
  match rows with
  | [] => None
  | row :: rest =>
      let line_number := S line_number in
      match check_fields throw_exception_on_error row line_number IMAP_FIELD_NAMES with
      | Some r => Some r
      | None => check_rows throw_exception_on_error rest line_number
      end
  end.

Definition is_valid (self : t) (throw_exception_on_error : bool) : Exn + bool :=
  match __imap_data self with
  | Some ((_ :: _) as rows) =>
      match check_rows throw_exception_on_error rows 0 with
      | Some r => r
      | None => inr true
      end
  | _ => inr false
  end.

(** [DatimImapFactory.is_valid_imap_period] *)
Definition is_valid_imap_period (period : string) : bool :=
  if decide (period = "FY17") then true else false.

(** A row has every I-MAP column. *)
Definition complete (row : Row) : Prop :=
  Forall (λ field_name, is_Some (row !! field_name)) IMAP_FIELD_NAMES.

(** A row with all nine columns, and the same row without one column. *)
Definition complete_row : Row :=
  list_to_map ((λ field_name, (field_name, "x")) <$> IMAP_FIELD_NAMES).

Definition row_without (field_name : string) : Row :=
  delete field_name complete_row.

(** *** The display formats *)

Definition DATIM_IMAP_FORMAT_CSV : string := "CSV".
Definition DATIM_IMAP_FORMAT_JSON : string := "JSON".
Definition DATIM_IMAP_FORMATS : list string :=
  [ DATIM_IMAP_FORMAT_CSV; DATIM_IMAP_FORMAT_JSON ].

(** [str.lower()] on a byte string: the letters [A] to [Z] become [a] to
    [z], every other byte stays. *)
Definition lower_char (c : ascii) : ascii :=
  let n := N_of_ascii c in
  if ((65 <=? n) && (n <=? 90))%N then ascii_of_N (n + 32) else c.

Fixpoint lower (s : string) : string :=
  match s with
  | EmptyString => EmptyString
  | String c rest => String (lower_char c) (lower rest)
  end.

(** The loop of [get_format_from_string] over the formats still to try. *)
Fixpoint first_format (format_string : string) (formats : list string)
    (default_fmt : string) : string :=
  match formats with
  | [] => default_fmt
  | fmt :: rest =>
      if decide (lower format_string = lower fmt) then fmt
      else first_format format_string rest default_fmt
  end.

(** [DatimImap.get_format_from_string(format_string, default_fmt='CSV')];
    the default of the second argument is left to the caller. *)
Definition get_format_from_string (format_string default_fmt : string) : string :=
  first_format format_string DATIM_IMAP_FORMATS default_fmt.

(** *** File names of OCL exports ([DatimImapFactory]) *)

(** Python's [IndexError: string index out of range]. *)
Inductive StrError : Type := IndexError.

(** [s.replace(old, new)] for one-character [old] and [new]. *)
Fixpoint replace_char (old new : ascii) (s : string) : string :=
  match s with
  | EmptyString => EmptyString
  | String c rest =>
      String (if decide (c = old) then new else c) (replace_char old new rest)
  end.

(** [s[-1]], [None] standing for the [IndexError] of the empty string. *)
Fixpoint str_last (s : string) : option ascii :=
  match s with
  | EmptyString => None
  | String c EmptyString => Some c
  | String _ rest => str_last rest
  end.

(** [s[:-1]] *)
Fixpoint str_init (s : string) : string :=
  match s with
  | EmptyString => EmptyString
  | String _ EmptyString => EmptyString
  | String c rest => String c (str_init rest)
  end.

(** [DatimImapFactory._convert_endpoint_to_filename_fmt] *)
Definition _convert_endpoint_to_filename_fmt (endpoint : string)
  : StrError + string :=
  let filename := replace_char "/" "-" endpoint in
  match filename with
  | EmptyString => inl IndexError
  | String c rest =>
      let filename := if decide (c = "-"%char) then rest else filename in
      match str_last filename with
      | None => inl IndexError
      | Some l =>
          inr (if decide (l = "-"%char) then str_init filename else filename)
      end
  end.

(** [DatimImapFactory.endpoint2filename_ocl_export_zip] *)
Definition endpoint2filename_ocl_export_zip (endpoint : string) : StrError + string :=
  match _convert_endpoint_to_filename_fmt endpoint with
  | inr filename => inr ("ocl-" +:+ filename +:+ ".zip")
  | inl e => inl e
  end.

(** [DatimImapFactory.endpoint2filename_ocl_export_json] *)
Definition endpoint2filename_ocl_export_json (endpoint : string) : StrError + string :=
  match _convert_endpoint_to_filename_fmt endpoint with
  | inr filename => inr ("ocl-" +:+ filename +:+ "-raw.json")
  | inl e => inl e
  end.



(** The characters of a string. *)
Fixpoint chars (s : string) : list ascii :=
  match s with
  | EmptyString => []
  | String c rest => c :: chars rest
  end.

End DatimImap.

(** ** [datimsyncmer.py] *)

Module DatimSyncMer.

(** *** The DHIS2 export document

    The document [json.load] returns, restricted to the fields that
    [dhis2diff_mer] reads.  Every field is optional: a JSON object may lack
    it, and [d['field']] then raises [KeyError]. *)

Record CategoryOptionCombo : Type := {
  coc_id : option string;
  coc_code : option string;
  coc_name : option string;
}.

Record CategoryCombo : Type := {
  categoryOptionCombos : option (list CategoryOptionCombo);
}.

Record DataSet : Type := {
  ds_id : option string;
}.

Record DataSetElement : Type := {
  dataSet : option DataSet;
}.

Record DataElement : Type := {
  de_id : option string;
  de_code : option string;
  de_name : option string;
  de_shortName : option string;
  de_description : option string;
  categoryCombo : option CategoryCombo;
  dataSetElements : option (list DataSetElement);
}.

Record Dhis2Export : Type := {
  dataElements : option (list DataElement);
}.

(** An entry of [conversion_attr['ocl_dataset_repos']], the table from
    DHIS2 dataset id to OCL collection; only its ['id'] is read. *)
Record OclDatasetRepo : Type := {
  repo_id : option string;
}.

(** *** The records written to [self.dhis2_diff] *)

Record Name : Type := {
  name : string;
  name_type : string;
  name_locale : string;
  name_locale_preferred : bool;
  name_external_id : option string;
}.

Record Description : Type := {
  description : string;
  description_type : string;
  description_locale : string;
  description_locale_preferred : bool;
  description_external_id : option string;
}.

Record Concept : Type := {
  concept_type : string;
  concept_id : string;
  concept_class : string;
  datatype : string;
  concept_owner : string;
  concept_owner_type : string;
  concept_source : string;
  retired : bool;
  external_id : string;
  descriptions : option (list Description);
  names : list Name;
}.

Record Mapping : Type := {
  mapping_type : string;
  mapping_owner : string;
  mapping_owner_type : string;
  mapping_source : string;
  map_type : string;
  from_concept_url : string;
  to_concept_url : string;
}.

(** Modelled from the spec: the reference record that
    [DatimSync.get_concept_reference_json] builds; that method is inherited
    from [datimsync.py], which is not part of the sources at hand.  The
    design document gives a reference record the fields owner, collection
    id and concept url. *)
Record Reference : Type := {
  reference_owner : string;
  reference_collection_id : string;
  reference_concept_url : string;
}.

(** [self.dhis2_diff[self.IMPORT_BATCH_MER]]: one dictionary per resource
    type. *)
Record Snapshot : Type := {
  concepts : gmap string Concept;
  mappings : gmap string Mapping;
  concept_refs : gmap string Reference;
}.

(** The five counters, local variables of [dhis2diff_mer]. *)
Record Counts : Type := {
  num_indicators : nat;
  num_disaggregates : nat;
  num_mappings : nat;
  num_indicator_refs : nat;
  num_disaggregate_refs : nat;
}.

(** What the loops of [dhis2diff_mer] read and write: the dictionaries of
    the object and the counters of the call. *)
Record State : Type := {
  dhis2_diff : Snapshot;
  counts : Counts;
}.

Definition empty_snapshot : Snapshot :=
  {| concepts := ∅; mappings := ∅; concept_refs := ∅ |}.

Definition zero_counts : Counts :=
  {| num_indicators := 0; num_disaggregates := 0; num_mappings := 0;
     num_indicator_refs := 0; num_disaggregate_refs := 0 |}.

(** [self.dhis2_diff[MER][RESOURCE_TYPE_CONCEPT][key] = c] *)
Definition set_concept (key : string) (c : Concept) (st : State) : State :=
  {| dhis2_diff :=
       {| concepts := <[key := c]> (concepts (dhis2_diff st));
          mappings := mappings (dhis2_diff st);
          concept_refs := concept_refs (dhis2_diff st) |};
     counts := counts st |}.

(** [self.dhis2_diff[MER][RESOURCE_TYPE_MAPPING][key] = m] *)
Definition set_mapping (key : string) (m : Mapping) (st : State) : State :=
  {| dhis2_diff :=
       {| concepts := concepts (dhis2_diff st);
          mappings := <[key := m]> (mappings (dhis2_diff st));
          concept_refs := concept_refs (dhis2_diff st) |};
     counts := counts st |}.

(** [self.dhis2_diff[MER][RESOURCE_TYPE_CONCEPT_REF][key] = r] *)
Definition set_concept_ref (key : string) (r : Reference) (st : State) : State :=
  {| dhis2_diff :=
       {| concepts := concepts (dhis2_diff st);
          mappings := mappings (dhis2_diff st);
          concept_refs := <[key := r]> (concept_refs (dhis2_diff st)) |};
     counts := counts st |}.

Definition with_counts (f : Counts → Counts) (st : State) : State :=
  {| dhis2_diff := dhis2_diff st; counts := f (counts st) |}.

Definition incr_indicators (c : Counts) : Counts :=
  {| num_indicators := S (num_indicators c);
     num_disaggregates := num_disaggregates c;
     num_mappings := num_mappings c;
     num_indicator_refs := num_indicator_refs c;
     num_disaggregate_refs := num_disaggregate_refs c |}.

Definition incr_disaggregates (c : Counts) : Counts :=
  {| num_indicators := num_indicators c;
     num_disaggregates := S (num_disaggregates c);
     num_mappings := num_mappings c;
     num_indicator_refs := num_indicator_refs c;
     num_disaggregate_refs := num_disaggregate_refs c |}.

Definition incr_mappings (c : Counts) : Counts :=
  {| num_indicators := num_indicators c;
     num_disaggregates := num_disaggregates c;
     num_mappings := S (num_mappings c);
     num_indicator_refs := num_indicator_refs c;
     num_disaggregate_refs := num_disaggregate_refs c |}.

Definition incr_indicator_refs (c : Counts) : Counts :=
  {| num_indicators := num_indicators c;
     num_disaggregates := num_disaggregates c;
     num_mappings := num_mappings c;
     num_indicator_refs := S (num_indicator_refs c);
     num_disaggregate_refs := num_disaggregate_refs c |}.

Definition incr_disaggregate_refs (c : Counts) : Counts :=
  {| num_indicators := num_indicators c;
     num_disaggregates := num_disaggregates c;
     num_mappings := num_mappings c;
     num_indicator_refs := num_indicator_refs c;
     num_disaggregate_refs := S (num_disaggregate_refs c) |}.

(** *** Keys and records *)

(** ['/orgs/PEPFAR/sources/MER/concepts/' + concept_id + '/'], the url of a
    concept and its key in the concept dictionary; the same expression
    serves indicators and disaggregates. *)
Definition concept_url (concept_id : string) : string :=
  "/orgs/PEPFAR/sources/MER/concepts/" +:+ concept_id +:+ "/".

Definition mapping_key (from_url to_url : string) : string :=
  "/orgs/PEPFAR/sources/MER/mappings/?from=" +:+ from_url +:+
  "&maptype=" +:+ "Has Option" +:+ "&to=" +:+ to_url.

Definition indicator_concept (code de_id de_name de_shortName : string)
    (de_description : option string) : Concept :=
  {| concept_type := "Concept";
     concept_id := code;
     concept_class := "Indicator";
     datatype := "Numeric";
     concept_owner := "PEPFAR";
     concept_owner_type := "Organization";
     concept_source := "MER";
     retired := false;
     external_id := de_id;
     descriptions :=
       match de_description with
       | Some d =>
           if decide (d = "") then None
           else Some [ {| description := d;
                          description_type := "Description";
                          description_locale := "en";
                          description_locale_preferred := true;
                          description_external_id := None |} ]
       | None => None
       end;
     names :=
       [ {| name := de_name; name_type := "Fully Specified";
            name_locale := "en"; name_locale_preferred := true;
            name_external_id := None |};
         {| name := de_shortName; name_type := "Short";
            name_locale := "en"; name_locale_preferred := false;
            name_external_id := None |} ] |}.

Definition disaggregate_concept (code coc_id coc_name : string) : Concept :=
  {| concept_type := "Concept";
     concept_id := code;
     concept_class := "Disaggregate";
     datatype := "None";
     concept_owner := "PEPFAR";
     concept_owner_type := "Organization";
     concept_source := "MER";
     retired := false;
     external_id := coc_id;
     descriptions := None;
     names :=
       [ {| name := coc_name; name_type := "Fully Specified";
            name_locale := "en"; name_locale_preferred := true;
            name_external_id := None |} ] |}.

Definition disaggregate_mapping (indicator_concept_url disaggregate_concept_url : string)
  : Mapping :=
  {| mapping_type := "Mapping";
     mapping_owner := "PEPFAR";
     mapping_owner_type := "Organization";
     mapping_source := "MER";
     map_type := "Has Option";
     from_concept_url := indicator_concept_url;
     to_concept_url := disaggregate_concept_url |}.

(** One function satisfying the design document's contract for reference
    keys, used where a property is exercised on concrete data. *)
Definition sample_concept_reference_json (owner_id collection_id concept_url : string)
  : string * Reference :=
  ("/orgs/" +:+ owner_id +:+ "/collections/" +:+ collection_id +:+
   "/references/?concept=" +:+ concept_url,
   {| reference_owner := owner_id;
      reference_collection_id := collection_id;
      reference_concept_url := concept_url |}).

(** *** The transformer *)

Section Transformer.

(** [DatimSync.get_concept_reference_json(owner_id, collection_id,
    concept_url)], inherited from a file that is not at hand: it returns
    the key and the record of a concept reference. *)
Variable get_concept_reference_json : string → string → string → string * Reference.

Variable ocl_dataset_repos : gmap string OclDatasetRepo.

(** The body of [for coc in de['categoryCombo']['categoryOptionCombos']];
    the loop-carried local is [indicator_disaggregate_concept_urls]. *)
Definition coc_body (indicator_concept_url : string)
    (indicator_disaggregate_concept_urls : list string)
    (coc : CategoryOptionCombo) : Py State (list string) :=
  let! disaggregate_concept_id := getitem (coc_code coc) "code" in
  let disaggregate_concept_url := concept_url disaggregate_concept_id in
  let disaggregate_concept_key := disaggregate_concept_url in
  let indicator_disaggregate_concept_urls :=
    indicator_disaggregate_concept_urls ++ [disaggregate_concept_url] in
  let! st := get in
  let! _ :=
    match concepts (dhis2_diff st) !! disaggregate_concept_key with
    | None =>
        let! id := getitem (coc_id coc) "id" in
        let! nm := getitem (coc_name coc) "name" in
        let! _ := modify (set_concept disaggregate_concept_key
                            (disaggregate_concept disaggregate_concept_id id nm)) in
        modify (with_counts incr_disaggregates)
    | Some _ => ret tt
    end in
  let! _ := modify (set_mapping
                      (mapping_key indicator_concept_url disaggregate_concept_url)
                      (disaggregate_mapping indicator_concept_url disaggregate_concept_url)) in
  let! _ := modify (with_counts incr_mappings) in
  ret indicator_disaggregate_concept_urls.

(** The body of [for disaggregate_concept_url in
    indicator_disaggregate_concept_urls]. *)
Definition disaggregate_ref_body (collection_id : string) (_ : unit)
    (disaggregate_concept_url : string) : Py State unit :=
  let '(disaggregate_ref_key, disaggregate_ref) :=
    get_concept_reference_json "PEPFAR" collection_id disaggregate_concept_url in
  let! st := get in
  match concept_refs (dhis2_diff st) !! disaggregate_ref_key with
  | None =>
      let! _ := modify (set_concept_ref disaggregate_ref_key disaggregate_ref) in
      modify (with_counts incr_disaggregate_refs)
  | Some _ => ret tt
  end.

(** The body of [for dse in de['dataSetElements']]. *)
Definition dse_body (indicator_concept_url : string)
    (indicator_disaggregate_concept_urls : list string) (_ : unit)
    (dse : DataSetElement) : Py State unit :=
  let! ds := getitem (dataSet dse) "dataSet" in
  let! id := getitem (ds_id ds) "id" in
  match ocl_dataset_repos !! id with
  | None => ret tt
  | Some repo =>
      let! collection_id := getitem (repo_id repo) "id" in
      let '(indicator_ref_key, indicator_ref) :=
        get_concept_reference_json "PEPFAR" collection_id indicator_concept_url in
      let! _ := modify (set_concept_ref indicator_ref_key indicator_ref) in
      let! _ := modify (with_counts incr_indicator_refs) in
      for_each (disaggregate_ref_body collection_id)
        indicator_disaggregate_concept_urls tt
  end.

(** The body of [for de in new_dhis2_export['dataElements']]. *)
Definition de_body (_ : unit) (de : DataElement) : Py State unit :=
  let! indicator_concept_id := getitem (de_code de) "code" in
  let indicator_concept_url := concept_url indicator_concept_id in
  let indicator_concept_key := indicator_concept_url in
  let! id := getitem (de_id de) "id" in
  let! nm := getitem (de_name de) "name" in
  let! short := getitem (de_shortName de) "shortName" in
  let! _ := modify (set_concept indicator_concept_key
                      (indicator_concept indicator_concept_id id nm short
                         (de_description de))) in
  let! _ := modify (with_counts incr_indicators) in
  let! cc := getitem (categoryCombo de) "categoryCombo" in
  let! cocs := getitem (categoryOptionCombos cc) "categoryOptionCombos" in
  let! indicator_disaggregate_concept_urls :=
    for_each (coc_body indicator_concept_url) cocs [] in
  let! dses := getitem (dataSetElements de) "dataSetElements" in
  for_each (dse_body indicator_concept_url indicator_disaggregate_concept_urls)
    dses tt.

Definition transform (new_dhis2_export : Dhis2Export) : Py State unit :=
  let! des := getitem (dataElements new_dhis2_export) "dataElements" in
  for_each de_body des tt.

(** [dhis2diff_mer] as a method on [self.dhis2_diff[MER]]: the counters
    start at zero on every call; a normal return (Python's [return True])
    yields the counters that the method logs, and in either outcome the
    dictionaries are left as the loops wrote them. *)
Definition dhis2diff_mer (new_dhis2_export : Dhis2Export) : Py Snapshot Counts :=
  λ snapshot,
    match transform new_dhis2_export {| dhis2_diff := snapshot; counts := zero_counts |} with
    | (inr _, st) => (inr (counts st), dhis2_diff st)
    | (inl e, st) => (inl e, dhis2_diff st)
    end.

End Transformer.

(** *** Notions used to state and prove the properties *)

(** Every mapping of the snapshot points at concepts of the snapshot. *)
Definition mappings_closed (s : Snapshot) : Prop :=
  ∀ k m, mappings s !! k = Some m →
    is_Some (concepts s !! from_concept_url m) ∧
    is_Some (concepts s !! to_concept_url m).

(** The same, with the indicator under [iurl] already stored: what holds
    around each turn of the category-option-combo loop. *)
Definition closed_with (iurl : string) (st : State) : Prop :=
  mappings_closed (dhis2_diff st) ∧ is_Some (concepts (dhis2_diff st) !! iurl).

(** The category-option-combos of a data element, and those of a list of
    data elements in document order. *)
Definition cocs_of (de : DataElement) : list CategoryOptionCombo :=
  match categoryCombo de with
  | Some cc => default [] (categoryOptionCombos cc)
  | None => []
  end.

Definition all_cocs (des : list DataElement) : list CategoryOptionCombo :=
  concat (cocs_of <$> des).

(** An export all of whose objects carry the fields the transformer
    reads, and a repository table all of whose entries carry an ['id']. *)
Definition wf_coc (coc : CategoryOptionCombo) : Prop :=
  is_Some (coc_code coc) ∧ is_Some (coc_id coc) ∧ is_Some (coc_name coc).

Definition wf_dse (dse : DataSetElement) : Prop :=
  ∃ ds, dataSet dse = Some ds ∧ is_Some (ds_id ds).

Definition wf_de (de : DataElement) : Prop :=
  is_Some (de_code de) ∧ is_Some (de_id de) ∧ is_Some (de_name de) ∧
  is_Some (de_shortName de) ∧
  (∃ cc cocs, categoryCombo de = Some cc ∧
     categoryOptionCombos cc = Some cocs ∧ Forall wf_coc cocs) ∧
  (∃ dses, dataSetElements de = Some dses ∧ Forall wf_dse dses).

Definition wf_export (e : Dhis2Export) : Prop :=
  ∃ des, dataElements e = Some des ∧ Forall wf_de des.

Definition wf_repos (repos : gmap string OclDatasetRepo) : Prop :=
  ∀ id repo, repos !! id = Some repo → is_Some (repo_id repo).

(** The keys that [dhis2diff_mer] subscripts the objects of the export and
    the entries of the table with. *)
Definition read_fields : list string :=
  [ "code"; "id"; "name"; "shortName"; "categoryCombo"; "categoryOptionCombos";
    "dataSetElements"; "dataSet" ].

(** The exception is the [KeyError] of one of those keys. *)
Definition key_error (e : Exn) (_ : State) : Prop :=
  ∃ key, e = KeyError key ∧ key ∈ read_fields.

(** A data element without a ['code'], a ['categoryCombo'] or a
    ['dataSetElements'] field. *)
Definition lacks_required_field (de : DataElement) : Prop :=
  de_code de = None ∨ categoryCombo de = None ∨ dataSetElements de = None.

(** [c0] is the first option combo of [cocs] whose code is [d]. *)
Definition first_with_code (d : string) (cocs : list CategoryOptionCombo)
    (c0 : CategoryOptionCombo) : Prop :=
  ∃ pre post, cocs = pre ++ c0 :: post ∧
    Forall (λ c, coc_code c ≠ Some d) pre ∧ coc_code c0 = Some d.

(** What processing the option combos [cocs] does to the concept entry
    under the key of code [d], when nothing else writes that key: an entry
    already there stays; otherwise the first combo with code [d], if any,
    supplies the record. *)
Definition concept_outcome (d : string) (cocs : list CategoryOptionCombo)
    (before after : option Concept) : Prop :=
  match before with
  | Some c => after = Some c
  | None =>
      (Forall (λ c, coc_code c ≠ Some d) cocs ∧ after = None)
      ∨ (∃ c0 id nm, first_with_code d cocs c0 ∧
           coc_id c0 = Some id ∧ coc_name c0 = Some nm ∧
           after = Some (disaggregate_concept d id nm))
  end.

(** Every mapping record is the 'Has Option' mapping from an indicator of
    [des] to a disaggregate, stored under the key of that pair. *)
Definition mappings_from (des : list DataElement) (m : gmap string Mapping) : Prop :=
  ∀ k v, m !! k = Some v →
    ∃ code d, (∃ de, de ∈ des ∧ de_code de = Some code) ∧
      k = mapping_key (concept_url code) (concept_url d) ∧
      v = disaggregate_mapping (concept_url code) (concept_url d).

(** The string has no ['/'] in it. *)
Definition slash_free (s : string) : Prop := ∀ a b, s ≠ a +:+ "/" +:+ b.

(** The two kinds of dictionary write the transformer performs:
    [d[k] = v], and [if k not in d: d[k] = v]. *)
Inductive mop (V : Type) : Type :=
| MSet (k : string) (v : V)
| MAdd (k : string) (v : V).
Arguments MSet {V} k v.
Arguments MAdd {V} k v.

Definition mstep {V} (m : gmap string V) (o : mop V) : gmap string V :=
  match o with
  | MSet k v => <[k := v]> m
  | MAdd k v => match m !! k with None => <[k := v]> m | Some _ => m end
  end.

Definition mexec {V} (os : list (mop V)) (m : gmap string V) : gmap string V :=
  foldl mstep m os.

(** What a write does to the entry under one key. *)
Definition kstep {V} (key : string) (cur : option V) (o : mop V) : option V :=
  match o with
  | MSet k v => if decide (k = key) then Some v else cur
  | MAdd k v =>
      if decide (k = key)
      then match cur with None => Some v | Some _ => cur end
      else cur
  end.

(** A write to one of the three dictionaries of a snapshot. *)
Inductive write : Type :=
| OnConcepts (o : mop Concept)
| OnMappings (o : mop Mapping)
| OnRefs (o : mop Reference).

Definition apply_write (s : Snapshot) (w : write) : Snapshot :=
  match w with
  | OnConcepts o =>
      {| concepts := mstep (concepts s) o; mappings := mappings s;
         concept_refs := concept_refs s |}
  | OnMappings o =>
      {| concepts := concepts s; mappings := mstep (mappings s) o;
         concept_refs := concept_refs s |}
  | OnRefs o =>
      {| concepts := concepts s; mappings := mappings s;
         concept_refs := mstep (concept_refs s) o |}
  end.

Definition exec (ws : list write) (s : Snapshot) : Snapshot :=
  foldl apply_write s ws.

(** The writes of a list that go to each dictionary. *)
Definition concept_ops (ws : list write) : list (mop Concept) :=
  omap (λ w, match w with OnConcepts o => Some o | _ => None end) ws.

Definition mapping_ops (ws : list write) : list (mop Mapping) :=
  omap (λ w, match w with OnMappings o => Some o | _ => None end) ws.

Definition ref_ops (ws : list write) : list (mop Reference) :=
  omap (λ w, match w with OnRefs o => Some o | _ => None end) ws.

(** Every concept key of [s] is a concept key of [t]. *)
Definition concepts_le (s t : Snapshot) : Prop :=
  ∀ k, is_Some (concepts s !! k) → is_Some (concepts t !! k).

(** A computation whose successful run amounts to a list of writes that
    does not depend on the state it started from, and that succeeds again,
    with the same value and the same writes, from any state holding at
    least the same concept keys. *)
Definition replayable {A} (m : Py State A) : Prop :=
  ∀ s a s', m s = (inr a, s') →
    ∃ ws, dhis2_diff s' = exec ws (dhis2_diff s) ∧
      ∀ t, concepts_le (dhis2_diff s) (dhis2_diff t) →
        ∃ t', m t = (inr a, t') ∧ dhis2_diff t' = exec ws (dhis2_diff t).

(** *** More notions for the properties of the transformer *)

(** The urls collected for an indicator are concept urls whose concepts
    are in the snapshot. *)
Definition urls_present (urls : list string) (st : State) : Prop :=
  Forall (λ u, ∃ d, u = concept_url d ∧ is_Some (concepts (dhis2_diff st) !! u)) urls.

(** [code] is the code of a data element of [des]. *)
Definition indicator_of (des : list DataElement) (code : string) : Prop :=
  ∃ de, de ∈ des ∧ de_code de = Some code.

(** The dataset links of a data element, and those of a list of data
    elements in document order. *)
Definition links_of (de : DataElement) : list DataSetElement :=
  default [] (dataSetElements de).

Definition all_links (des : list DataElement) : list DataSetElement :=
  concat (links_of <$> des).

(** The collection that the table gives for a dataset link, if any. *)
Definition collection_of (repos : gmap string OclDatasetRepo)
    (dse : DataSetElement) : option string :=
  match dataSet dse with
  | Some ds =>
      match ds_id ds with
      | Some id =>
          match repos !! id with
          | Some repo => repo_id repo
          | None => None
          end
      | None => None
      end
  | None => None
  end.

(** The dataset of the link is in the table. *)
Definition known_link (repos : gmap string OclDatasetRepo)
    (dse : DataSetElement) : bool :=
  match dataSet dse with
  | Some ds =>
      match ds_id ds with
      | Some id => bool_decide (is_Some (repos !! id))
      | None => false
      end
  | None => false
  end.

(** Every concept record sits under the key made from its own id, belongs
    to PEPFAR's MER source, is not retired, is an Indicator or a
    Disaggregate, and has English names of which exactly one, the fully
    specified one, is preferred. *)
Definition concept_ok (k : string) (c : Concept) : Prop :=
  k = concept_url (concept_id c) ∧
  concept_type c = "Concept" ∧
  concept_owner c = "PEPFAR" ∧ concept_owner_type c = "Organization" ∧
  concept_source c = "MER" ∧ retired c = false ∧
  (concept_class c = "Indicator" ∧ datatype c = "Numeric"
   ∨ concept_class c = "Disaggregate" ∧ datatype c = "None") ∧
  Forall (λ n, name_locale n = "en") (names c) ∧
  (∃ n, filter (λ n, name_locale_preferred n = true) (names c) = [n] ∧
        name_type n = "Fully Specified").

Definition concepts_ok (s : Snapshot) : Prop :=
  ∀ k c, concepts s !! k = Some c → concept_ok k c.

(** Every concept reference was built for a collection of the table and a
    concept of the snapshot. *)
Definition refs_ok
    (get_concept_reference_json : string → string → string → string * Reference)
    (repos : gmap string OclDatasetRepo) (s : Snapshot) : Prop :=
  ∀ k r, concept_refs s !! k = Some r →
    ∃ id repo collection_id url,
      repos !! id = Some repo ∧ repo_id repo = Some collection_id ∧
      get_concept_reference_json "PEPFAR" collection_id url = (k, r) ∧
      is_Some (concepts s !! url).

(** The sizes of the three dictionaries, bounded by the sizes [n], [m], [r]
    they started from and the counters. *)
Definition sizes_counted (n m r : nat) (st : State) : Prop :=
  n + num_disaggregates (counts st) ≤ size (concepts (dhis2_diff st)) ∧
  size (concepts (dhis2_diff st))
    ≤ n + num_indicators (counts st) + num_disaggregates (counts st) ∧
  m ≤ size (mappings (dhis2_diff st)) ∧
  size (mappings (dhis2_diff st)) ≤ m + num_mappings (counts st) ∧
  r + num_disaggregate_refs (counts st) ≤ size (concept_refs (dhis2_diff st)) ∧
  size (concept_refs (dhis2_diff st))
    ≤ r + num_indicator_refs (counts st) + num_disaggregate_refs (counts st).

(** *** The settings of the script

    The module-level code of [datimsyncmer.py] that chooses the settings
    handed to [DatimSyncMer]: from the environment when the first argument
    of the command line is ['true'] or ['True'], for local development
    otherwise. *)

Record Settings : Type := {
  verbosity : nat;
  import_limit : nat;
  import_test_mode : bool;
  runoffline : bool;
  compare2previousexport : bool;
  dhis2env : string;
  dhis2uid : string;
  dhis2pwd : string;
  oclenv : string;
  oclapitoken : string;
}.

(** [s in ['true', 'True']] *)
Definition in_true_True (s : string) : bool :=
  bool_decide (s ∈ ["true"; "True"]).

(** The environment variables that the server settings read, in the order
    in which the script reads them. *)
Definition server_variables : list string :=
  [ "DHIS2_ENV"; "DHIS2_USER"; "DHIS2_PASS"; "OCL_ENV"; "OCL_API_TOKEN";
    "COMPARE_PREVIOUS_EXPORT" ].

Section Script.

(** The user name, the password and the API token that the script writes
    out for local development. *)
Variables local_dhis2uid local_dhis2pwd local_oclapitoken : string.

(** The settings for [sys.argv] and [os.environ]; [os.environ[k]] raises
    [KeyError] when the variable [k] is not set. *)
Definition script_settings (argv : list string) (environ : gmap string string)
  : Exn + Settings :=
  fst ((if bool_decide (1 < length argv)
           && default false (in_true_True <$> argv !! 1)
        then
          let! dhis2env := getitem (environ !! "DHIS2_ENV") "DHIS2_ENV" in
          let! dhis2uid := getitem (environ !! "DHIS2_USER") "DHIS2_USER" in
          let! dhis2pwd := getitem (environ !! "DHIS2_PASS") "DHIS2_PASS" in
          let! oclenv := getitem (environ !! "OCL_ENV") "OCL_ENV" in
          let! oclapitoken := getitem (environ !! "OCL_API_TOKEN") "OCL_API_TOKEN" in
          let! compare :=
            getitem (environ !! "COMPARE_PREVIOUS_EXPORT") "COMPARE_PREVIOUS_EXPORT" in
          ret {| verbosity := 2; import_limit := 0; import_test_mode := false;
                 runoffline := false;
                 compare2previousexport := in_true_True compare;
                 dhis2env := dhis2env; dhis2uid := dhis2uid; dhis2pwd := dhis2pwd;
                 oclenv := oclenv; oclapitoken := oclapitoken |}
        else
          ret {| verbosity := 2; import_limit := 1; import_test_mode := true;
                 runoffline := false; compare2previousexport := false;
                 dhis2env := "https://dev-de.datim.org/";
                 dhis2uid := local_dhis2uid; dhis2pwd := local_dhis2pwd;
                 oclenv := "https://oclapi-qa.openmrs.org";
                 oclapitoken := local_oclapitoken |}) tt).

End Script.

(** *** Sample exports *)

Definition sample_repos : gmap string OclDatasetRepo :=
  {[ "dsA" := {| repo_id := Some "COL1" |} ]}.

Definition sample_coc (id code nm : string) : CategoryOptionCombo :=
  {| coc_id := Some id; coc_code := Some code; coc_name := Some nm |}.

Definition sample_link (dataset_id : string) : DataSetElement :=
  {| dataSet := Some {| ds_id := Some dataset_id |} |}.

Definition sample_de (id code nm short : string)
    (cocs : list CategoryOptionCombo) (links : list DataSetElement) : DataElement :=
  {| de_id := Some id; de_code := Some code; de_name := Some nm;
     de_shortName := Some short; de_description := None;
     categoryCombo := Some {| categoryOptionCombos := Some cocs |};
     dataSetElements := Some links |}.

(** The scenario of the design document: one indicator, one disaggregate,
    one link to a dataset of the table. *)
Definition tx_new : DataElement :=
  sample_de "u1" "TX_NEW" "New on ART" "TX_NEW"
    [sample_coc "c1" "Age_15+" "15+"] [sample_link "dsA"].

Definition tx_curr : DataElement :=
  sample_de "u2" "TX_CURR" "Currently on ART" "TX_CURR"
    [sample_coc "c1bis" "Age_15+" "15 and over"] [sample_link "dsA"].

Definition single_export : Dhis2Export := {| dataElements := Some [tx_new] |}.

(** Two indicators that share the disaggregate [Age_15+]. *)
Definition shared_export : Dhis2Export :=
  {| dataElements := Some [tx_new; tx_curr] |}.

(** A data element whose own code is the code of its option combo. *)
Definition same_code_de : DataElement :=
  sample_de "u3" "X" "Indicator X" "X" [sample_coc "c3" "X" "Option X"]
    [sample_link "dsA"].

Definition same_code_export : Dhis2Export :=
  {| dataElements := Some [same_code_de] |}.

(** Two data elements sharing the option combo code [X], the second one
    having [X] as its own code too. *)
Definition overwritten_export : Dhis2Export :=
  {| dataElements :=
       Some [ sample_de "u4" "A" "Indicator A" "A"
                [sample_coc "c3" "X" "Option X"] [sample_link "dsA"];
              same_code_de ] |}.

(** A data element without a ['code']. *)
Definition no_code_de : DataElement :=
  {| de_id := Some "u5"; de_code := None; de_name := Some "No code";
     de_shortName := Some "NC"; de_description := None;
     categoryCombo := Some {| categoryOptionCombos := Some [] |};
     dataSetElements := Some [] |}.

(** An environment with the six variables of the server settings. *)
Definition sample_environ : gmap string string :=
  list_to_map
    [ ("DHIS2_ENV", "https://dhis2.example.org/"); ("DHIS2_USER", "sync");
      ("DHIS2_PASS", "secret"); ("OCL_ENV", "https://ocl.example.org");
      ("OCL_API_TOKEN", "token"); ("COMPARE_PREVIOUS_EXPORT", "True") ].

End DatimSyncMer.
(** * Properties *)

(** ** Rules for triples *)

Section HoareRules.
Context {S : Type}.
Implicit Types (P : S → Prop) (E : Exn → S → Prop).

Lemma hoare_ret {A} P (a : A) (Q : A → S → Prop) E :
  (∀ s, P s → Q a s) → hoare P (ret a) Q E.
Proof. intros H s Hs. by apply H. Qed.

Lemma hoare_raise {A} P e (Q : A → S → Prop) E :
  (∀ s, P s → E e s) → hoare P (raise e) Q E.
Proof. intros H s Hs. by apply H. Qed.

Lemma hoare_bind {A B} P (m : Py S A) (R : A → S → Prop) (f : A → Py S B)
    (Q : B → S → Prop) E :
  hoare P m R E → (∀ a, hoare (R a) (f a) Q E) → hoare P (bind m f) Q E.
Proof.
  intros Hm Hf s Hs. unfold bind. specialize (Hm s Hs).
  destruct (m s) as [[e|a] s']; [done|]. by apply Hf.
Qed.

Lemma hoare_conseq {A} P P' (m : Py S A) (Q Q' : A → S → Prop) E E' :
  hoare P' m Q' E' →
  (∀ s, P s → P' s) → (∀ a s, Q' a s → Q a s) → (∀ e s, E' e s → E e s) →
  hoare P m Q E.
Proof.
  intros Hm HP HQ HE s Hs. specialize (Hm s (HP s Hs)).
  destruct (m s) as [[e|a] s']; auto.
Qed.

Lemma hoare_get P E : hoare P get (λ a s, a = s ∧ P s) E.
Proof. by intros s Hs. Qed.

Lemma hoare_modify P (f : S → S) (Q : unit → S → Prop) E :
  (∀ s, P s → Q tt (f s)) → hoare P (modify f) Q E.
Proof. intros H s Hs. by apply H. Qed.

Lemma hoare_getitem {A} P (field : option A) key (Q : A → S → Prop) E :
  (∀ a s, field = Some a → P s → Q a s) →
  (∀ s, field = None → P s → E (KeyError key) s) →
  hoare P (getitem field key) Q E.
Proof. intros HQ HE s Hs. destruct field; [by apply HQ | by apply HE]. Qed.

Lemma hoare_for_each {A B} (I : B → S → Prop) (body : B → A → Py S B) E xs :
  (∀ b x, x ∈ xs → hoare (I b) (body b x) I E) →
  ∀ b, hoare (I b) (for_each body xs b) I E.
Proof.
  induction xs as [|x xs IH]; intros Hbody b.
  - by apply hoare_ret.
  - simpl. eapply hoare_bind.
    + apply Hbody. by left.
    + intros b'. apply IH. intros b'' y Hy. apply Hbody. by right.
Qed.

End HoareRules.

(** ** Unfolding computations *)

Lemma bind_unfold {S A B} (m : Py S A) (f : A → Py S B) s :
  bind m f s
  = match m s with
    | (inr a, s') => f a s'
    | (inl e, s') => (inl e, s')
    end.
Proof. reflexivity. Qed.

Lemma for_each_nil {S A B} (body : B → A → Py S B) acc s :
  for_each body [] acc s = (inr acc, s).
Proof. reflexivity. Qed.

Lemma for_each_cons {S A B} (body : B → A → Py S B) x xs acc s :
  for_each body (x :: xs) acc s
  = match body acc x s with
    | (inr acc', s') => for_each body xs acc' s'
    | (inl e, s') => (inl e, s')
    end.
Proof. reflexivity. Qed.

Lemma for_each_app {S A B} (body : B → A → Py S B) xs ys acc s :
  for_each body (xs ++ ys) acc s
  = match for_each body xs acc s with
    | (inr acc', s') => for_each body ys acc' s'
    | (inl e, s') => (inl e, s')
    end.
Proof.
  revert acc s. induction xs as [|x xs IH]; intros acc s; [done|].
  rewrite <-app_comm_cons, !for_each_cons.
  destruct (body acc x s) as [[e|acc'] s']; [done | apply IH].
Qed.

(** ** Keys *)

Lemma string_app_cons a (s t : string) : String a s +:+ t = String a (s +:+ t).
Proof. reflexivity. Qed.

Lemma string_app_nil (t : string) : "" +:+ t = t.
Proof. reflexivity. Qed.

Lemma string_length_app (s t : string) :
  String.length (s +:+ t) = String.length s + String.length t.
Proof.
  induction s as [|a s IH]; [done|].
  rewrite string_app_cons. simpl. by rewrite IH.
Qed.

Lemma string_app_inj_r (s1 s2 t : string) : s1 +:+ t = s2 +:+ t → s1 = s2.
Proof.
  intros H.
  assert (Hlen : String.length s1 = String.length s2).
  { apply (f_equal String.length) in H. rewrite !string_length_app in H. lia. }
  revert s2 H Hlen. induction s1 as [|a s1 IH]; intros [|b s2] H Hlen;
    simpl in Hlen; try done.
  rewrite !string_app_cons in H. injection H as -> H.
  f_equal. apply IH; [done | lia].
Qed.

Lemma concept_url_inj a b :
  DatimSyncMer.concept_url a = DatimSyncMer.concept_url b → a = b.
Proof.
  unfold DatimSyncMer.concept_url. intros H.
  apply String.app_inj in H. by apply string_app_inj_r in H.
Qed.

Lemma mapping_key_inj_from a b to_url :
  DatimSyncMer.mapping_key a to_url = DatimSyncMer.mapping_key b to_url → a = b.
Proof.
  unfold DatimSyncMer.mapping_key. intros H.
  apply String.app_inj in H. by apply string_app_inj_r in H.
Qed.

Lemma string_app_assoc (a b c : string) : (a +:+ b) +:+ c = a +:+ (b +:+ c).
Proof.
  induction a as [|x a IH]; [done|]. rewrite !string_app_cons. by rewrite IH.
Qed.

Lemma slash_free_tail c s :
  DatimSyncMer.slash_free (String c s) → DatimSyncMer.slash_free s.
Proof. intros Hfree a b ->. by apply (Hfree (String c a) b). Qed.

Lemma first_slash_inj (i i' r r' : string) :
  DatimSyncMer.slash_free i → DatimSyncMer.slash_free i' →
  i +:+ "/" +:+ r = i' +:+ "/" +:+ r' → i = i' ∧ r = r'.
Proof.
  revert i'. induction i as [|c i IH]; intros [|c' i'] Hi Hi' Heq;
    repeat (rewrite string_app_cons in Heq || rewrite string_app_nil in Heq).
  - by injection Heq as ->.
  - injection Heq as <- _. by destruct (Hi' "" i').
  - injection Heq as -> _. by destruct (Hi "" i).
  - injection Heq as -> Heq.
    apply slash_free_tail in Hi, Hi'.
    destruct (IH i' Hi Hi' Heq) as [-> ->]. done.
Qed.

Lemma mapping_key_inj i i' d d' :
  DatimSyncMer.slash_free i → DatimSyncMer.slash_free i' →
  DatimSyncMer.mapping_key (DatimSyncMer.concept_url i) (DatimSyncMer.concept_url d)
  = DatimSyncMer.mapping_key (DatimSyncMer.concept_url i') (DatimSyncMer.concept_url d') →
  i = i' ∧ d = d'.
Proof.
  unfold DatimSyncMer.mapping_key, DatimSyncMer.concept_url.
  intros Hi Hi' Heq. apply String.app_inj in Heq.
  rewrite !string_app_assoc in Heq. apply String.app_inj in Heq.
  apply first_slash_inj in Heq as [-> Heq]; [|done..].
  split; [done|].
  do 3 apply String.app_inj in Heq. by apply (concept_url_inj d d') in Heq.
Qed.

(** ** The I-MAP object *)

Module DatimImapFacts.
Import DatimImap.

Lemma append_rows rows : ∀ self acc,
  __imap_data self = Some acc →
  for_each append_row rows tt self
  = (inr tt, with_imap_data (Some (acc ++ rows)) self).
Proof.
  induction rows as [|row rows IH]; intros self acc Hacc; simpl.
  - unfold ret. f_equal. destruct self; simpl in *. subst.
    unfold with_imap_data; simpl. by rewrite app_nil_r.
  - unfold bind, append_row, modify. rewrite Hacc; simpl.
    rewrite (IH _ (acc ++ [row])); [|done].
    unfold with_imap_data; simpl. by rewrite <-app_assoc.
Qed.

Lemma check_fields_None throw row line_number fields :
  check_fields throw row line_number fields = None
  ↔ Forall (λ field_name, is_Some (row !! field_name)) fields.
Proof.
  induction fields as [|f fields IH]; simpl.
  - split; [constructor | done].
  - destruct (row !! f) as [v|] eqn:Hf.
    + rewrite IH. split; [intros; constructor; eauto | by inversion 1].
    + split; [by destruct throw|].
      inversion 1 as [|? ? [v Hv]]. congruence.
Qed.

Lemma check_fields_Some throw row line_number fields r :
  check_fields throw row line_number fields = Some r →
  ∃ j field_name,
    fields !! j = Some field_name ∧ row !! field_name = None ∧
    Forall (λ g, is_Some (row !! g)) (take j fields) ∧
    r = if throw
        then inl (Exception (missing_field_msg field_name line_number))
        else inr false.
Proof.
  induction fields as [|f fields IH]; simpl; [done|].
  destruct (row !! f) as [v|] eqn:Hf.
  - intros (j & g & Hj & Hg & Hpre & Hr)%IH.
    exists (S j), g. simpl. repeat split; try done.
    constructor; eauto.
  - intros Hr. exists 0, f. simpl. repeat split; try done.
    by destruct throw; injection Hr as <-.
Qed.

Lemma check_rows_cons throw row rest line_number :
  check_rows throw (row :: rest) line_number
  = match check_fields throw row (S line_number) IMAP_FIELD_NAMES with
    | Some r => Some r
    | None => check_rows throw rest (S line_number)
    end.
Proof. reflexivity. Qed.

Lemma check_rows_None throw rows line_number :
  check_rows throw rows line_number = None ↔ Forall complete rows.
Proof.
  revert line_number. induction rows as [|row rows IH]; intros n.
  - split; [constructor | done].
  - rewrite check_rows_cons.
    destruct (check_fields _ _ _ _) as [r|] eqn:Hrow.
    + split; [done|]. inversion 1 as [|? ? Hc].
      apply (check_fields_None throw row (S n)) in Hc. congruence.
    + rewrite IH. apply check_fields_None in Hrow.
      split; [by constructor | by inversion 1].
Qed.

Lemma check_rows_Some throw rows line_number r :
  check_rows throw rows line_number = Some r →
  ∃ i row j field_name,
    rows !! i = Some row ∧ Forall complete (take i rows) ∧
    IMAP_FIELD_NAMES !! j = Some field_name ∧ row !! field_name = None ∧
    Forall (λ g, is_Some (row !! g)) (take j IMAP_FIELD_NAMES) ∧
    r = if throw
        then inl (Exception (missing_field_msg field_name (line_number + S i)))
        else inr false.
Proof.
  revert line_number. induction rows as [|row rows IH]; intros n; [done|].
  rewrite check_rows_cons.
  destruct (check_fields _ _ _ _) as [r'|] eqn:Hrow.
  - intros [= ->]. apply check_fields_Some in Hrow as (j & f & Hj & Hf & Hpre & ->).
    exists 0, row, j, f. simpl. repeat split; try done.
    by replace (n + 1) with (S n) by lia.
  - intros (i & row' & j & f & Hi & Hpre & Hj & Hf & Hfpre & ->)%IH.
    exists (S i), row', j, f. simpl. repeat split; try done.
    + constructor; [|done]. by apply check_fields_None in Hrow.
    + by replace (n + S (S i)) with (S n + S i) by lia.
Qed.

(** C8. The period check accepts a period string exactly when it is the
    allow-listed period ['FY17']: an accepted period is allow-listed, and
    any other string is rejected. *)
Theorem C8_is_valid_imap_period (period : string) :
  is_valid_imap_period period = true ↔ period = "FY17".
Proof. unfold is_valid_imap_period. by case_decide. Qed.

(** C9. Constructing a [DatimImap] with [imap_data=None], or with any value
    that is neither a [csv.DictReader] nor a list, raises from
    [set_imap_data] and leaves the imap data of the object at [None]; with
    a reader or a list the constructor succeeds and the object holds the
    rows as a list, so every successfully constructed object holds a
    list. *)
Theorem C9_init_imap_data (country_code country_org period : string) :
  __init__ country_code country_org period ArgNone
  = (inl (Exception "Cannot set I-MAP data with 'None'"),
     mk country_code country_org period None)
  ∧ (∀ arg,
      match arg with
      | ArgDictReader rows | ArgList rows =>
          __init__ country_code country_org period arg
          = (inr tt, mk country_code country_org period (Some rows))
      | _ =>
          ∃ e, __init__ country_code country_org period arg
               = (inl e, mk country_code country_org period None)
      end)
  ∧ (∀ arg u self,
      __init__ country_code country_org period arg = (inr u, self) →
      ∃ rows, __imap_data self = Some rows).
Proof.
  assert (Hall : ∀ arg,
    match arg with
    | ArgDictReader rows | ArgList rows =>
        __init__ country_code country_org period arg
        = (inr tt, mk country_code country_org period (Some rows))
    | _ =>
        ∃ e, __init__ country_code country_org period arg
             = (inl e, mk country_code country_org period None)
    end).
  { intros [rows|rows| |items|shown]; try by eexists.
    unfold __init__, set_imap_data, bind, modify.
    by rewrite (append_rows rows _ []). }
  repeat split; try done.
  intros arg u self. specialize (Hall arg).
  destruct arg as [rows|rows| |items|shown].
  - rewrite Hall. intros [= _ <-]. by exists rows.
  - rewrite Hall. intros [= _ <-]. by exists rows.
  - by destruct Hall as [e ->].
  - by destruct Hall as [e ->].
  - by destruct Hall as [e ->].
Qed.

Lemma C9_init_imap_data_witness :
  ∃ rows,
    __imap_data (snd (__init__ "UG" "DATIM-MOH-UG" "FY17" (ArgList [∅]))) = Some rows.
Proof.
  destruct (C9_init_imap_data "UG" "DATIM-MOH-UG" "FY17") as (_ & _ & H).
  apply (H (ArgList [∅]) tt). reflexivity.
Defined.

(** The message of [is_valid] tells the field and the row: two messages for
    I-MAP field names are equal only for the same field and the same row
    number. *)
Lemma missing_field_msg_inj f f' (n n' : nat) :
  f ∈ IMAP_FIELD_NAMES → f' ∈ IMAP_FIELD_NAMES →
  "Missing field '" +:+ f +:+ "' on row " +:+ pretty n +:+ " of input file"
  = "Missing field '" +:+ f' +:+ "' on row " +:+ pretty n' +:+ " of input file" →
  f = f' ∧ n = n'.
Proof.
  intros Hf Hf' H. apply String.app_inj in H.
  assert (Hrow : "' on row " +:+ pretty n +:+ " of input file"
                 = "' on row " +:+ pretty n' +:+ " of input file" → n = n').
  { intros Hn. apply String.app_inj, string_app_inj_r in Hn.
    by apply (inj pretty) in Hn. }
  unfold IMAP_FIELD_NAMES in Hf, Hf'.
  repeat (apply elem_of_cons in Hf as [-> | Hf]);
    [| | | | | | | | | by apply elem_of_nil in Hf];
    repeat (apply elem_of_cons in Hf' as [-> | Hf']);
    try (by apply elem_of_nil in Hf');
    try (split; [reflexivity|]; apply String.app_inj in H; by apply Hrow);
    rewrite ?string_app_cons in H; exfalso; congruence.
Qed.

(** C10. [is_valid] returns [False], whatever [throw_exception_on_error]
    is, when the stored data is [None] or empty; it returns [True] exactly
    for non-empty data all of whose rows have the nine I-MAP fields; and
    when some row lacks a field it returns [False] without the flag and,
    with the flag, raises the exception whose message is
    ["Missing field '<field>' on row <number> of input file"] for the first
    missing field of the first incomplete row and that row's 1-based
    number.  The message identifies both: for I-MAP field names, equal
    messages have the same field and the same number. *)
Theorem C10_is_valid (self : t) :
  (∀ throw, __imap_data self = None ∨ __imap_data self = Some [] →
     is_valid self throw = inr false)
  ∧ (∀ throw, is_valid self throw = inr true
       ↔ ∃ rows, __imap_data self = Some rows ∧ rows ≠ [] ∧ Forall complete rows)
  ∧ (∀ rows, __imap_data self = Some rows → ¬ Forall complete rows →
       is_valid self false = inr false ∧
       ∃ i row j field_name,
         rows !! i = Some row ∧ Forall complete (take i rows) ∧
         IMAP_FIELD_NAMES !! j = Some field_name ∧ row !! field_name = None ∧
         Forall (λ g, is_Some (row !! g)) (take j IMAP_FIELD_NAMES) ∧
         is_valid self true
         = inl (Exception ("Missing field '" +:+ field_name +:+ "' on row "
                           +:+ pretty (S i) +:+ " of input file")) ∧
         ∀ i' field_name',
           field_name' ∈ IMAP_FIELD_NAMES →
           is_valid self true
           = inl (Exception ("Missing field '" +:+ field_name' +:+ "' on row "
                             +:+ pretty (S i') +:+ " of input file")) →
           field_name' = field_name ∧ i' = i).
Proof.
  unfold is_valid. split; [|split].
  - by intros throw [-> | ->].
  - intros throw. destruct (__imap_data self) as [[|row rows]|] eqn:Hdata.
    + split; [done | by intros (? & [= <-] & ? & _)].
    + destruct (check_rows throw (row :: rows) 0) as [r|] eqn:Hrows.
      * split.
        -- intros ->. apply check_rows_Some in Hrows
             as (? & ? & ? & ? & _ & _ & _ & _ & _ & Hr).
           by destruct throw.
        -- intros (? & [= <-] & _ & Hall). apply (check_rows_None throw _ 0) in Hall.
           congruence.
      * split; [|done]. intros _. exists (row :: rows).
        apply check_rows_None in Hrows. done.
    + split; [done | by intros (? & ? & _)].
  - intros rows -> Hbad. destruct rows as [|row rows]; [by destruct Hbad|].
    cbv beta iota.
    assert (Hsome : ∀ throw, is_Some (check_rows throw (row :: rows) 0)).
    { intros throw. destruct (check_rows throw (row :: rows) 0) eqn:Hc; [eauto|].
      by apply check_rows_None in Hc. }
    split.
    + destruct (Hsome false) as [r Hr]. rewrite Hr.
      by apply check_rows_Some in Hr as (? & ? & ? & ? & _ & _ & _ & _ & _ & ->).
    + destruct (Hsome true) as [r Hr]. rewrite Hr.
      apply check_rows_Some in Hr as (i & row' & j & f & ? & ? & Hj & ? & ? & ->).
      exists i, row', j, f. repeat (split; [done|]).
      intros i' f' Hf' Hmsg.
      pose proof (f_equal (λ r : Exn + bool,
                    match r with inl (Exception m) => m | _ => "" end) Hmsg) as Hm.
      cbv beta iota in Hm. unfold missing_field_msg in Hm.
      apply missing_field_msg_inj in Hm as [<- [= <-]]; [done| |done].
      by apply list_elem_of_lookup_2 in Hj.
Qed.

Example cannot_set_msg_None :
  cannot_set_msg "None" = "Cannot set I-MAP data with 'None'".
Proof. reflexivity. Qed.

Example is_valid_complete :
  is_valid (mk "UG" "DATIM-MOH-UG" "FY17" (Some [complete_row; complete_row])) true
  = inr true.
Proof. vm_compute. reflexivity. Qed.

Example is_valid_second_row_incomplete :
  is_valid (mk "UG" "DATIM-MOH-UG" "FY17"
              (Some [complete_row; row_without "Operation"; row_without "MOH_Disag_ID"]))
    true
  = inl (Exception "Missing field 'Operation' on row 2 of input file").
Proof. vm_compute. reflexivity. Qed.

Example is_valid_second_row_incomplete_quiet :
  is_valid (mk "UG" "DATIM-MOH-UG" "FY17"
              (Some [complete_row; row_without "Operation"]))
    false
  = inr false.
Proof. vm_compute. reflexivity. Qed.

Lemma C10_is_valid_witness :
  is_valid (mk "UG" "DATIM-MOH-UG" "FY17" (Some [])) true = inr false
  ∧ is_valid (mk "UG" "DATIM-MOH-UG" "FY17" (Some [row_without "Operation"])) false
    = inr false
  ∧ is_valid (mk "UG" "DATIM-MOH-UG" "FY17" (Some [row_without "Operation"])) true
    = inl (Exception "Missing field 'Operation' on row 1 of input file").
Proof.
  assert (Hbad : ¬ Forall complete [row_without "Operation"]).
  { intros Hall. apply Forall_inv in Hall.
    apply (Forall_lookup_1 _ _ 4 "Operation") in Hall; [|reflexivity].
    vm_compute in Hall. by destruct Hall. }
  split; [|split].
  - destruct (C10_is_valid (mk "UG" "DATIM-MOH-UG" "FY17" (Some []))) as (H & _).
    apply H. right. reflexivity.
  - destruct (C10_is_valid
                (mk "UG" "DATIM-MOH-UG" "FY17" (Some [row_without "Operation"])))
      as (_ & _ & H).
    apply (H [row_without "Operation"]); [reflexivity | exact Hbad].
  - destruct (C10_is_valid
                (mk "UG" "DATIM-MOH-UG" "FY17" (Some [row_without "Operation"])))
      as (_ & _ & H).
    destruct (H [row_without "Operation"] eq_refl Hbad)
      as (_ & i & row & j & f & Hi & _ & Hj & Hf & _ & Hraise & _).
    destruct i as [|i]; [|done]. injection Hi as <-.
    destruct j as [|[|[|[|[|[|[|[|[|j]]]]]]]]];
      try (cbn in Hj; discriminate Hj);
      injection Hj as <-; try (vm_compute in Hf; discriminate Hf).
    exact Hraise.
Defined.

(** *** Display formats *)

Lemma first_format_cases s d :
  get_format_from_string s d
  = if decide (lower s = "csv") then "CSV"
    else if decide (lower s = "json") then "JSON" else d.
Proof.
  unfold get_format_from_string, DATIM_IMAP_FORMATS. simpl.
  change (lower DATIM_IMAP_FORMAT_CSV) with "csv".
  change (lower DATIM_IMAP_FORMAT_JSON) with "json".
  by repeat case_decide.
Qed.

(** X1. The format lookup ignores letter case: a format string that is
    [csv] or [json] in any casing gives the canonical ['CSV'] or ['JSON'],
    any other string gives the default, and two strings that differ only in
    the case of their letters give the same answer. *)
Theorem X1_get_format_ignores_case (format_string default_fmt : string) :
  (lower format_string = "csv" →
     get_format_from_string format_string default_fmt = "CSV")
  ∧ (lower format_string = "json" →
       get_format_from_string format_string default_fmt = "JSON")
  ∧ (lower format_string ≠ "csv" → lower format_string ≠ "json" →
       get_format_from_string format_string default_fmt = default_fmt)
  ∧ (∀ other, lower format_string = lower other →
       get_format_from_string format_string default_fmt
       = get_format_from_string other default_fmt).
Proof.
  rewrite first_format_cases. repeat split.
  - intros H. by rewrite decide_True.
  - intros H. rewrite decide_False, decide_True; [done..|]. by rewrite H.
  - intros H1 H2. by rewrite !decide_False.
  - intros other H. by rewrite first_format_cases, H.
Qed.

Lemma X1_get_format_ignores_case_witness :
  get_format_from_string "Json" "CSV" = "JSON".
Proof.
  destruct (X1_get_format_ignores_case "Json" "CSV") as (_ & H & _).
  apply H. reflexivity.
Defined.

(** X2. With the default ['CSV'] the lookup always answers one of the two
    known formats, a known format is its own answer whatever the default,
    and so looking up an answer again changes nothing. *)
Theorem X2_get_format_known (format_string default_fmt : string) :
  get_format_from_string format_string "CSV" ∈ DATIM_IMAP_FORMATS
  ∧ (get_format_from_string format_string default_fmt ∈ DATIM_IMAP_FORMATS
     ∨ get_format_from_string format_string default_fmt = default_fmt)
  ∧ get_format_from_string "CSV" default_fmt = "CSV"
  ∧ get_format_from_string "JSON" default_fmt = "JSON"
  ∧ get_format_from_string (get_format_from_string format_string "CSV") default_fmt
    = get_format_from_string format_string "CSV".
Proof.
  rewrite !(first_format_cases format_string).
  unfold DATIM_IMAP_FORMATS, DATIM_IMAP_FORMAT_CSV, DATIM_IMAP_FORMAT_JSON.
  repeat split; try done.
  - repeat case_decide; set_solver.
  - repeat case_decide; [left; set_solver | left; set_solver | by right].
  - by repeat case_decide.
Qed.

(** *** File names of OCL exports *)

Lemma replace_char_app old new s1 s2 :
  replace_char old new (s1 +:+ s2)
  = replace_char old new s1 +:+ replace_char old new s2.
Proof.
  induction s1 as [|c s1 IH]; [done|].
  rewrite string_app_cons. simpl. by rewrite IH.
Qed.

Lemma replace_char_length old new s :
  String.length (replace_char old new s) = String.length s.
Proof. induction s as [|c s IH]; simpl; [done | by rewrite IH]. Qed.

Lemma replace_char_empty old new s : replace_char old new s = "" ↔ s = "".
Proof. by destruct s. Qed.

Lemma str_last_None s : str_last s = None ↔ s = "".
Proof.
  induction s as [|c s IH]; [done|]. simpl.
  destruct s as [|c' s]; [done|]. rewrite IH. done.
Qed.

Lemma str_last_snoc s c : str_last (s +:+ String c "") = Some c.
Proof.
  induction s as [|c' s IH]; [done|].
  rewrite string_app_cons. simpl. rewrite IH.
  by destruct (s +:+ String c "") eqn:Hs; [destruct s|].
Qed.

Lemma str_init_snoc s c : str_init (s +:+ String c "") = s.
Proof.
  induction s as [|c' s IH]; [done|].
  rewrite string_app_cons. simpl. rewrite IH.
  by destruct (s +:+ String c "") eqn:Hs; [destruct s|].
Qed.

Lemma str_snoc_inv s :
  s ≠ "" → ∃ s' c, s = s' +:+ String c "".
Proof.
  induction s as [|c s IH]; [done|]. intros _.
  destruct s as [|c' s].
  - by exists "", c.
  - destruct IH as (s' & l & ->); [done|]. by exists (String c s'), l.
Qed.

Lemma str_last_app s1 s2 : s2 ≠ "" → str_last (s1 +:+ s2) = str_last s2.
Proof.
  intros (s' & c & ->)%str_snoc_inv.
  by rewrite <-string_app_assoc, !str_last_snoc.
Qed.

Lemma chars_app s1 s2 : chars (s1 +:+ s2) = chars s1 ++ chars s2.
Proof.
  induction s1 as [|c s1 IH]; [done|].
  rewrite string_app_cons. simpl. by rewrite IH.
Qed.

Lemma chars_replace_char old new s :
  old ≠ new → old ∉ chars (replace_char old new s).
Proof.
  intros Hne. induction s as [|c s IH]; simpl; [set_solver|].
  apply not_elem_of_cons. split; [|done]. by case_decide.
Qed.

Lemma chars_str_init s c : c ∈ chars (str_init s) → c ∈ chars s.
Proof.
  destruct (decide (s = "")) as [->|Hs]; [done|].
  apply str_snoc_inv in Hs as (s' & l & ->).
  rewrite str_init_snoc, chars_app. set_solver.
Qed.

(** X3. The endpoint conversion raises [IndexError] exactly on the empty
    endpoint and on the endpoints [/] and [-], the three inputs that leave
    nothing to index; every other endpoint gives a file name. *)
Theorem X3_convert_endpoint_fails_iff (endpoint : string) :
  _convert_endpoint_to_filename_fmt endpoint = inl IndexError
  ↔ endpoint = "" ∨ endpoint = "/" ∨ endpoint = "-".
Proof.
  unfold _convert_endpoint_to_filename_fmt.
  destruct endpoint as [|c rest]; simpl; [naive_solver|].
  destruct (decide (c = "/"%char)) as [->|Hslash]; simpl.
  - destruct (str_last (replace_char "/" "-" rest)) as [l|] eqn:Hlast.
    + split; [done|]. intros [? | [[= ->] | ?]]; done.
    + apply str_last_None, replace_char_empty in Hlast as ->. naive_solver.
  - destruct (decide (c = "-"%char)) as [->|Hdash].
    + destruct (str_last (replace_char "/" "-" rest)) as [l|] eqn:Hlast.
      * split; [done|]. intros [? | [? | [= ->]]]; done.
      * apply str_last_None, replace_char_empty in Hlast as ->. naive_solver.
    + destruct (str_last (String c (replace_char "/" "-" rest))) as [l|] eqn:Hlast.
      * split; [done|]. intros [? | [[= ? ?] | [= ? ?]]]; done.
      * by apply str_last_None in Hlast.
Qed.

(** X4. A file name produced by the endpoint conversion contains no
    slash. *)
Theorem X4_convert_endpoint_no_slash (endpoint filename : string) :
  _convert_endpoint_to_filename_fmt endpoint = inr filename →
  "/"%char ∉ chars filename.
Proof.
  unfold _convert_endpoint_to_filename_fmt.
  pose proof (chars_replace_char "/" "-" endpoint) as Hfree.
  destruct (replace_char "/" "-" endpoint) as [|c rest]; [done|].
  set (f := if decide (c = "-"%char) then rest else String c rest).
  assert (Hrest : "/"%char ∉ chars f).
  { unfold f. case_decide; [|by apply Hfree]. simpl in Hfree.
    intros Hin. apply Hfree; [done | by right]. }
  destruct (str_last f) as [l|]; [|done]. intros [= <-].
  destruct (decide (l = "-"%char)); [|done].
  intros Hin. by apply Hrest, chars_str_init.
Qed.

Lemma X4_convert_endpoint_no_slash_witness :
  "/"%char ∉ chars "orgs-PEPFAR-collections-MER-R-Facility-DoD-FY17Q1".
Proof.
  apply (X4_convert_endpoint_no_slash
           "/orgs/PEPFAR/collections/MER-R-Facility-DoD-FY17Q1/").
  vm_compute. reflexivity.
Defined.

(** X5. For an endpoint written between two slashes, as OCL endpoints are,
    the conversion drops those two slashes and turns every slash in between
    into a dash; it never fails on such an endpoint. *)
Theorem X5_convert_endpoint_wrapped (body : string) :
  _convert_endpoint_to_filename_fmt ("/" +:+ body +:+ "/")
  = inr (replace_char "/" "-" body).
Proof.
  unfold _convert_endpoint_to_filename_fmt.
  assert (replace_char "/" "-" ("/" +:+ body +:+ "/")
          = String "-" (replace_char "/" "-" body +:+ "-")) as ->.
  { by rewrite !replace_char_app. }
  cbv beta iota zeta. rewrite (decide_True (P := "-"%char = "-"%char)) by done.
  by rewrite str_last_snoc, decide_True, str_init_snoc.
Qed.

(** X6. The conversion removes at most two characters: the file name is
    no longer than the endpoint and at most two characters shorter. *)
Theorem X6_convert_endpoint_length (endpoint filename : string) :
  _convert_endpoint_to_filename_fmt endpoint = inr filename →
  String.length filename ≤ String.length endpoint
  ∧ String.length endpoint ≤ String.length filename + 2.
Proof.
  unfold _convert_endpoint_to_filename_fmt.
  pose proof (replace_char_length "/" "-" endpoint) as Hlen.
  destruct (replace_char "/" "-" endpoint) as [|c rest]; [done|].
  simpl in Hlen.
  set (f := if decide (c = "-"%char) then rest else String c rest).
  assert (Hf : String.length f ≤ String.length endpoint
               ∧ String.length endpoint ≤ String.length f + 1).
  { unfold f. case_decide; simpl; lia. }
  destruct (str_last f) as [l|] eqn:Hlast; [|done]. intros [= <-].
  case_decide; [|lia].
  assert (f ≠ "") as (s' & l' & Hs)%str_snoc_inv.
  { intros Hf'. by rewrite Hf' in Hlast. }
  rewrite Hs, str_init_snoc in *. rewrite string_length_app in Hf.
  simpl in Hf. lia.
Qed.

Lemma X6_convert_endpoint_length_witness :
  String.length "orgs-PEPFAR-sources-MER" ≤ String.length "/orgs/PEPFAR/sources/MER/"
  ∧ String.length "/orgs/PEPFAR/sources/MER/"
    ≤ String.length "orgs-PEPFAR-sources-MER" + 2.
Proof.
  apply (X6_convert_endpoint_length "/orgs/PEPFAR/sources/MER/").
  vm_compute. reflexivity.
Defined.

(** X7. The zip file name of one endpoint is never the raw JSON file name
    of another, or of the same: the two exports of OCL cannot overwrite one
    another; and the two names exist exactly when the conversion of the
    endpoint succeeds. *)
Theorem X7_export_filenames_apart (endpoint endpoint' : string) :
  (∀ z j, endpoint2filename_ocl_export_zip endpoint = inr z →
          endpoint2filename_ocl_export_json endpoint' = inr j → z ≠ j)
  ∧ (endpoint2filename_ocl_export_zip endpoint = inl IndexError
     ↔ _convert_endpoint_to_filename_fmt endpoint = inl IndexError)
  ∧ (endpoint2filename_ocl_export_json endpoint = inl IndexError
     ↔ _convert_endpoint_to_filename_fmt endpoint = inl IndexError).
Proof.
  unfold endpoint2filename_ocl_export_zip, endpoint2filename_ocl_export_json.
  repeat split.
  - destruct (_convert_endpoint_to_filename_fmt endpoint) as [[]|f]; [done|].
    destruct (_convert_endpoint_to_filename_fmt endpoint') as [[]|f']; [done|].
    intros z j [= <-] [= <-] Heq. apply (f_equal str_last) in Heq.
    rewrite <-!string_app_assoc in Heq.
    rewrite (str_last_app _ ".zip"), (str_last_app _ "-raw.json") in Heq by done.
    done.
  - by destruct (_convert_endpoint_to_filename_fmt endpoint) as [[]|f].
  - by destruct (_convert_endpoint_to_filename_fmt endpoint) as [[]|f].
  - by destruct (_convert_endpoint_to_filename_fmt endpoint) as [[]|f].
  - by destruct (_convert_endpoint_to_filename_fmt endpoint) as [[]|f].
Qed.

Lemma X7_export_filenames_apart_witness :
  "ocl-orgs-PEPFAR-sources-MER.zip" ≠ "ocl-orgs-PEPFAR-sources-MER-raw.json".
Proof.
  destruct (X7_export_filenames_apart "/orgs/PEPFAR/sources/MER/"
              "/orgs/PEPFAR/sources/MER/") as (H & _).
  apply H; vm_compute; reflexivity.
Defined.

(** *** More on the I-MAP object *)

Lemma is_valid_true_iff self throw :
  is_valid self throw = inr true
  ↔ ∃ rows, __imap_data self = Some rows ∧ rows ≠ [] ∧ Forall complete rows.
Proof.
  unfold is_valid. destruct (__imap_data self) as [[|row rows]|].
  - split; [done | by intros (? & [= <-] & ? & _)].
  - destruct (check_rows throw (row :: rows) 0) as [r|] eqn:Hrows.
    + split.
      * intros ->. apply check_rows_Some in Hrows
          as (? & ? & ? & ? & _ & _ & _ & _ & _ & Hr).
        by destruct throw.
      * intros (? & [= <-] & _ & Hall).
        apply (check_rows_None throw _ 0) in Hall. congruence.
    + split; [|done]. intros _. exists (row :: rows).
      apply check_rows_None in Hrows. done.
  - split; [done | by intros (? & ? & _)].
Qed.

Lemma complete_weaken (row row' : Row) : row ⊆ row' → complete row → complete row'.
Proof.
  intros Hsub Hrow. unfold complete in *. eapply Forall_impl; [exact Hrow|].
  intros field_name [v Hv]. exists v. by eapply lookup_weaken.
Qed.

(** X8. Validity looks at the nine I-MAP columns only: when every row
    keeps its cells and gains others, a valid I-MAP stays valid, whatever
    the two flags are. *)
Theorem X8_is_valid_extra_columns (self self' : t) rows rows' throw throw' :
  __imap_data self = Some rows → __imap_data self' = Some rows' →
  Forall2 (⊆) rows rows' →
  is_valid self throw = inr true →
  is_valid self' throw' = inr true.
Proof.
  intros Hrows Hrows' Hsub (rows0 & Hrows0 & Hne & Hall)%is_valid_true_iff.
  assert (rows0 = rows) as -> by congruence.
  apply is_valid_true_iff. exists rows'. split; [done|]. split.
  - intros ->. apply Forall2_nil_inv_r in Hsub. done.
  - clear Hrows Hrows0 Hrows' Hne.
    induction Hsub as [|row row' rows rows' Hrow _ IH]; [constructor|].
    inversion Hall; subst. constructor; [by eapply complete_weaken | by apply IH].
Qed.

Lemma X8_is_valid_extra_columns_witness :
  is_valid (mk "UG" "DATIM-MOH-UG" "FY17" (Some [<["Comment" := "x"]> complete_row]))
    false
  = inr true.
Proof.
  apply (X8_is_valid_extra_columns
           (mk "UG" "DATIM-MOH-UG" "FY17" (Some [complete_row])) _
           [complete_row] [<["Comment" := "x"]> complete_row] true false).
  - reflexivity.
  - reflexivity.
  - constructor; [|constructor]. apply insert_subseteq. reflexivity.
  - vm_compute. reflexivity.
Defined.

(** X9. [set_imap_data] replaces the stored rows and never appends to
    them: given a reader or a list, the object holds exactly the new rows
    whatever it held before; given anything else it raises and the object
    keeps what it held. *)
Theorem X9_set_imap_data_replaces (self : t) (arg : ImapArg) :
  match arg with
  | ArgDictReader rows | ArgList rows =>
      set_imap_data arg self = (inr tt, with_imap_data (Some rows) self)
  | _ => ∃ e, set_imap_data arg self = (inl e, self)
  end.
Proof.
  destruct arg as [rows|rows| |items|shown]; try by eexists.
  unfold set_imap_data, bind, modify.
  rewrite (append_rows rows _ []) by done. by destruct self.
Qed.



End DatimImapFacts.
(** ** The MER transformer *)

Module DatimSyncMerFacts.
Import DatimSyncMer.

Ltac py_unfold :=
  unfold bind, getitem, get, modify, ret, raise in *.

(** Closes a goal [key_error (KeyError k) st] for a key [k] that the
    transformer reads. *)
Ltac raise_key :=
  eexists; split; [reflexivity | unfold read_fields; repeat constructor].

(** C5. The concept key is a function of the concept id alone (owner
    PEPFAR and source MER being fixed), and distinct ids give distinct keys
    ['/orgs/PEPFAR/sources/MER/concepts/{id}/']. *)
Theorem C5_concept_key_injective (id1 id2 : string) :
  concept_url id1 = "/orgs/PEPFAR/sources/MER/concepts/" +:+ id1 +:+ "/"
  ∧ (concept_url id1 = concept_url id2 ↔ id1 = id2).
Proof.
  split; [done|]. split; [apply concept_url_inj | by intros ->].
Qed.

Section Facts.

Variable get_concept_reference_json : string → string → string → string * Reference.
Variable ocl_dataset_repos : gmap string OclDatasetRepo.

Abbreviation coc_body := DatimSyncMer.coc_body.
Abbreviation disaggregate_ref_body :=
  (DatimSyncMer.disaggregate_ref_body get_concept_reference_json).
Abbreviation dse_body :=
  (DatimSyncMer.dse_body get_concept_reference_json ocl_dataset_repos).
Abbreviation de_body :=
  (DatimSyncMer.de_body get_concept_reference_json ocl_dataset_repos).
Abbreviation transform :=
  (DatimSyncMer.transform get_concept_reference_json ocl_dataset_repos).
Abbreviation dhis2diff_mer :=
  (DatimSyncMer.dhis2diff_mer get_concept_reference_json ocl_dataset_repos).

(** *** What each loop touches *)

(** The reference loops leave the concept and mapping dictionaries alone. *)
Lemma disaggregate_ref_body_frame collection_id url (P : Snapshot → Prop) :
  (∀ s k r, P s →
     P {| concepts := concepts s; mappings := mappings s;
          concept_refs := <[k := r]> (concept_refs s) |}) →
  hoare (λ st, P (dhis2_diff st)) (disaggregate_ref_body collection_id tt url)
    (λ _ st, P (dhis2_diff st)) (λ _ st, P (dhis2_diff st)).
Proof.
  intros HP st Hst. unfold DatimSyncMer.disaggregate_ref_body.
  destruct (get_concept_reference_json _ _ _) as [k r]. py_unfold.
  destruct (concept_refs (dhis2_diff st) !! k); simpl; [done|].
  by apply HP.
Qed.

Lemma dse_body_frame iurl urls dse (P : Snapshot → Prop) :
  (∀ s k r, P s →
     P {| concepts := concepts s; mappings := mappings s;
          concept_refs := <[k := r]> (concept_refs s) |}) →
  hoare (λ st, P (dhis2_diff st)) (dse_body iurl urls tt dse)
    (λ _ st, P (dhis2_diff st)) (λ _ st, P (dhis2_diff st)).
Proof.
  intros HP. unfold DatimSyncMer.dse_body.
  apply hoare_bind with (R := λ _ st, P (dhis2_diff st)).
  { by apply hoare_getitem. }
  intros ds. apply hoare_bind with (R := λ _ st, P (dhis2_diff st)).
  { by apply hoare_getitem. }
  intros id. destruct (ocl_dataset_repos !! id) as [repo|]; [|by apply hoare_ret].
  apply hoare_bind with (R := λ _ st, P (dhis2_diff st)).
  { by apply hoare_getitem. }
  intros collection_id.
  destruct (get_concept_reference_json _ _ _) as [k r].
  apply hoare_bind with (R := λ _ st, P (dhis2_diff st)).
  { apply hoare_modify. intros st Hst. by apply HP. }
  intros _. apply hoare_bind with (R := λ _ st, P (dhis2_diff st)).
  { by apply hoare_modify. }
  intros _. apply (hoare_for_each (λ _ st, P (dhis2_diff st))).
  intros [] url _. by apply disaggregate_ref_body_frame.
Qed.

Lemma dse_loop_frame iurl urls dses (P : Snapshot → Prop) :
  (∀ s k r, P s →
     P {| concepts := concepts s; mappings := mappings s;
          concept_refs := <[k := r]> (concept_refs s) |}) →
  hoare (λ st, P (dhis2_diff st)) (for_each (dse_body iurl urls) dses tt)
    (λ _ st, P (dhis2_diff st)) (λ _ st, P (dhis2_diff st)).
Proof.
  intros HP. apply (hoare_for_each (λ _ st, P (dhis2_diff st))).
  intros [] dse _. by apply dse_body_frame.
Qed.

(** *** Mappings point at concepts of the snapshot *)

Lemma mappings_closed_set_concept k c st :
  mappings_closed (dhis2_diff st) →
  mappings_closed (dhis2_diff (set_concept k c st)).
Proof.
  intros Hc k' m Hm. destruct (Hc k' m Hm) as [Hf Ht]. simpl.
  split; rewrite lookup_insert_is_Some; destruct (decide (k = from_concept_url m));
    destruct (decide (k = to_concept_url m)); auto.
Qed.

Lemma mappings_closed_set_mapping from_url to_url st :
  mappings_closed (dhis2_diff st) →
  is_Some (concepts (dhis2_diff st) !! from_url) →
  is_Some (concepts (dhis2_diff st) !! to_url) →
  mappings_closed
    (dhis2_diff (set_mapping (mapping_key from_url to_url)
                   (disaggregate_mapping from_url to_url) st)).
Proof.
  intros Hc Hf Ht k m. simpl. rewrite lookup_insert.
  case_decide; [by intros [= <-] | apply Hc].
Qed.

Lemma coc_body_closed iurl urls coc :
  hoare (closed_with iurl) (coc_body iurl urls coc)
    (λ _, closed_with iurl) (λ _, closed_with iurl).
Proof.
  intros st [Hc Hi]. unfold DatimSyncMer.coc_body. py_unfold.
  destruct (coc_code coc) as [d|]; simpl; [|done].
  destruct (concepts (dhis2_diff st) !! concept_url d) as [c|] eqn:Hd; simpl.
  - split; [|done]. apply (mappings_closed_set_mapping _ _ st); eauto.
  - destruct (coc_id coc) as [id|]; simpl; [|done].
    destruct (coc_name coc) as [nm|]; simpl; [|done].
    set (st1 := set_concept (concept_url d) (disaggregate_concept d id nm) st).
    assert (His : is_Some (concepts (dhis2_diff st1) !! iurl)).
    { simpl. rewrite lookup_insert_is_Some'. by right. }
    split; [|done].
    apply (mappings_closed_set_mapping _ _ st1); [|done|].
    + by apply mappings_closed_set_concept.
    + simpl. rewrite lookup_insert_is_Some'. by left.
Qed.

Lemma de_body_closed de :
  hoare (λ st, mappings_closed (dhis2_diff st)) (de_body tt de)
    (λ _ st, mappings_closed (dhis2_diff st))
    (λ _ st, mappings_closed (dhis2_diff st)).
Proof.
  intros st Hst. unfold DatimSyncMer.de_body. py_unfold.
  destruct (de_code de) as [code|]; simpl; [|done].
  destruct (de_id de) as [id|]; simpl; [|done].
  destruct (de_name de) as [nm|]; simpl; [|done].
  destruct (de_shortName de) as [short|]; simpl; [|done].
  set (st1 := with_counts _ _).
  assert (H1 : closed_with (concept_url code) st1).
  { split; [by apply mappings_closed_set_concept|].
    simpl. rewrite lookup_insert_is_Some'. by left. }
  destruct (categoryCombo de) as [cc|]; simpl; [|by destruct H1].
  destruct (categoryOptionCombos cc) as [cocs|]; simpl; [|by destruct H1].
  pose proof (hoare_for_each (λ _, closed_with (concept_url code))
               (coc_body (concept_url code)) (λ _, closed_with (concept_url code))
               cocs (λ b x _, coc_body_closed _ b x) [] st1 H1) as Hloop.
  destruct (for_each _ cocs [] st1) as [[e|urls] st2]; [by destruct Hloop|].
  destruct Hloop as [H2 _].
  destruct (dataSetElements de) as [dses|]; simpl; [|done].
  pose proof (dse_loop_frame (concept_url code) urls dses mappings_closed
                (λ s k r H, H) st2 H2) as Hrefs.
  by destruct (for_each _ dses tt st2) as [[e|[]] st3].
Qed.

Lemma transform_closed e :
  hoare (λ st, mappings_closed (dhis2_diff st)) (transform e)
    (λ _ st, mappings_closed (dhis2_diff st))
    (λ _ st, mappings_closed (dhis2_diff st)).
Proof.
  unfold DatimSyncMer.transform.
  apply hoare_bind with (R := λ _ st, mappings_closed (dhis2_diff st)).
  { by apply hoare_getitem. }
  intros des. apply (hoare_for_each (λ _ st, mappings_closed (dhis2_diff st))).
  intros [] de _. apply de_body_closed.
Qed.

Lemma dhis2diff_mer_closed e snapshot :
  mappings_closed snapshot →
  mappings_closed (snd (dhis2diff_mer e snapshot)).
Proof.
  intros H. unfold DatimSyncMer.dhis2diff_mer.
  pose proof (transform_closed e {| dhis2_diff := snapshot; counts := zero_counts |} H)
    as Ht.
  by destruct (transform e _) as [[err|[]] st].
Qed.

(** C3. In the snapshot that [dhis2diff_mer] leaves behind, started on the
    empty snapshot and whether it returns or raises, every mapping record
    of the mapping partition has its [from_concept_url] and its
    [to_concept_url] among the keys of the concept partition. *)
Theorem C3_mappings_reference_present_concepts (e : Dhis2Export) k m :
  mappings (snd (dhis2diff_mer e empty_snapshot)) !! k = Some m →
  is_Some (concepts (snd (dhis2diff_mer e empty_snapshot)) !! from_concept_url m)
  ∧ is_Some (concepts (snd (dhis2diff_mer e empty_snapshot)) !! to_concept_url m).
Proof.
  apply (dhis2diff_mer_closed e empty_snapshot). by intros k' m'.
Qed.

(** *** Failures are missing fields, and missing fields are failures *)

Lemma coc_body_key_errors iurl urls coc :
  hoare (λ _, True) (coc_body iurl urls coc) (λ _ _, True) key_error.
Proof.
  intros st _. unfold DatimSyncMer.coc_body, key_error. py_unfold.
  destruct (coc_code coc) as [d|]; simpl; [|raise_key].
  destruct (concepts (dhis2_diff st) !! concept_url d); simpl; [done|].
  destruct (coc_id coc); simpl; [|raise_key].
  destruct (coc_name coc); simpl; [done | raise_key].
Qed.

Lemma disaggregate_ref_loop_returns collection_id urls : ∀ st,
  ∃ st', for_each (disaggregate_ref_body collection_id) urls tt st = (inr tt, st').
Proof.
  induction urls as [|url urls IH]; intros st; simpl; [by eexists|].
  unfold bind at 1. unfold DatimSyncMer.disaggregate_ref_body at 1.
  destruct (get_concept_reference_json _ _ _) as [k r]. py_unfold.
  destruct (concept_refs (dhis2_diff st) !! k); simpl; apply IH.
Qed.

Lemma dse_body_key_errors iurl urls dse :
  hoare (λ _, True) (dse_body iurl urls tt dse) (λ _ _, True) key_error.
Proof.
  intros st _. unfold DatimSyncMer.dse_body, key_error. py_unfold.
  destruct (dataSet dse) as [ds|]; simpl; [|raise_key].
  destruct (ds_id ds) as [id|]; simpl; [|raise_key].
  destruct (ocl_dataset_repos !! id) as [repo|]; simpl; [|done].
  destruct (repo_id repo) as [collection_id|]; simpl; [|raise_key].
  destruct (get_concept_reference_json _ _ _) as [k r]. simpl.
  set (st1 := with_counts _ _).
  by destruct (disaggregate_ref_loop_returns collection_id urls st1) as [st2 ->].
Qed.

Lemma de_body_key_errors de :
  hoare (λ _, True) (de_body tt de) (λ _ _, True) key_error.
Proof.
  intros st _. unfold DatimSyncMer.de_body. py_unfold.
  destruct (de_code de) as [code|]; simpl; [|raise_key].
  destruct (de_id de) as [id|]; simpl; [|raise_key].
  destruct (de_name de) as [nm|]; simpl; [|raise_key].
  destruct (de_shortName de) as [short|]; simpl; [|raise_key].
  set (st1 := with_counts _ _).
  destruct (categoryCombo de) as [cc|]; simpl; [|raise_key].
  destruct (categoryOptionCombos cc) as [cocs|]; simpl; [|raise_key].
  pose proof (hoare_for_each (λ _ _, True) (coc_body (concept_url code)) key_error
               cocs (λ b x _, coc_body_key_errors _ b x) [] st1 I) as Hloop.
  destruct (for_each _ cocs [] st1) as [[e|urls] st2]; [done|].
  destruct (dataSetElements de) as [dses|]; simpl; [|raise_key].
  pose proof (hoare_for_each (λ _ _, True)
               (dse_body (concept_url code) urls) key_error
               dses (λ b x _, match b with tt => dse_body_key_errors _ _ x end)
               tt st2 I) as Hrefs.
  by destruct (for_each _ dses tt st2) as [[e|[]] st3].
Qed.

Lemma de_body_lacking de :
  lacks_required_field de →
  hoare (λ _, True) (de_body tt de) (λ _ _, False) key_error.
Proof.
  intros Hlack st _. unfold DatimSyncMer.de_body. py_unfold.
  destruct (de_code de) as [code|] eqn:Hcode; simpl; [|raise_key].
  destruct (de_id de) as [id|]; simpl; [|raise_key].
  destruct (de_name de) as [nm|]; simpl; [|raise_key].
  destruct (de_shortName de) as [short|]; simpl; [|raise_key].
  set (st1 := with_counts _ _).
  destruct (categoryCombo de) as [cc|] eqn:Hcc; simpl; [|raise_key].
  destruct (categoryOptionCombos cc) as [cocs|]; simpl; [|raise_key].
  pose proof (hoare_for_each (λ _ _, True) (coc_body (concept_url code)) key_error
               cocs (λ b x _, coc_body_key_errors _ b x) [] st1 I) as Hloop.
  destruct (for_each _ cocs [] st1) as [[e|urls] st2]; [done|].
  destruct (dataSetElements de) as [dses|] eqn:Hdses; simpl; [|raise_key].
  destruct Hlack as [? | [? | ?]]; congruence.
Qed.

Lemma de_loop_lacking des :
  (∃ de, de ∈ des ∧ lacks_required_field de) →
  hoare (λ _, True) (for_each de_body des tt) (λ _ _, False) key_error.
Proof.
  induction des as [|de0 des IH]; intros (de & Hin & Hlack) st _.
  { by apply elem_of_nil in Hin. }
  simpl. unfold bind.
  pose proof (de_body_key_errors de0 st I) as Hany.
  destruct (de_body tt de0 st) as [[e|[]] st1] eqn:Hde0; [done|].
  apply elem_of_cons in Hin as [-> | Hin].
  - pose proof (de_body_lacking de0 Hlack st I) as Hbad. by rewrite Hde0 in Hbad.
  - apply IH; [by exists de | done].
Qed.

(** C2. When a data element of the export has no ['code'], no
    ['categoryCombo'] or no ['dataSetElements'] field, [dhis2diff_mer] does
    not return: from any snapshot it raises Python's [KeyError], for one of
    the keys that it subscripts the export with. *)
Theorem C2_missing_field_raises (e : Dhis2Export) des de snapshot :
  dataElements e = Some des →
  de ∈ des →
  de_code de = None ∨ categoryCombo de = None ∨ dataSetElements de = None →
  ∃ key snapshot',
    dhis2diff_mer e snapshot = (inl (KeyError key), snapshot')
    ∧ key ∈ [ "code"; "id"; "name"; "shortName"; "categoryCombo";
              "categoryOptionCombos"; "dataSetElements"; "dataSet" ].
Proof.
  intros Hdes Hin Hlack.
  unfold DatimSyncMer.dhis2diff_mer, DatimSyncMer.transform. py_unfold.
  rewrite Hdes.
  pose proof (de_loop_lacking des (ex_intro _ de (conj Hin Hlack))
                {| dhis2_diff := snapshot; counts := zero_counts |} I) as Hloop.
  destruct (for_each _ des tt _) as [[err|[]] st]; [|done].
  destruct Hloop as (key & -> & Hkey). by eexists _, _.
Qed.

(** *** Well-formed exports are transformed *)

Lemma coc_loop_returns iurl cocs :
  Forall wf_coc cocs →
  ∀ urls st, ∃ urls' st', for_each (coc_body iurl) cocs urls st = (inr urls', st').
Proof.
  induction 1 as [|coc cocs (Hcode & Hid & Hname) _ IH]; intros urls st; simpl.
  { by eexists _, _. }
  unfold bind at 1. unfold DatimSyncMer.coc_body at 1. py_unfold.
  destruct Hcode as [d ->], Hid as [id ->], Hname as [nm ->]. simpl.
  destruct (concepts (dhis2_diff st) !! concept_url d); simpl; apply IH.
Qed.

Lemma dse_loop_returns iurl urls dses :
  wf_repos ocl_dataset_repos → Forall wf_dse dses →
  ∀ st, ∃ st', for_each (dse_body iurl urls) dses tt st = (inr tt, st').
Proof.
  intros Hrepos. induction 1 as [|dse dses (ds & Hds & [id Hid]) _ IH];
    intros st; simpl.
  { by eexists. }
  unfold bind at 1. unfold DatimSyncMer.dse_body at 1. py_unfold.
  rewrite Hds; simpl. rewrite Hid; simpl.
  destruct (ocl_dataset_repos !! id) as [repo|] eqn:Hrepo; simpl; [|apply IH].
  destruct (Hrepos _ _ Hrepo) as [collection_id ->]. simpl.
  destruct (get_concept_reference_json _ _ _) as [k r]. simpl.
  set (st1 := with_counts _ _).
  destruct (disaggregate_ref_loop_returns collection_id urls st1) as [st2 ->].
  apply IH.
Qed.

Lemma de_loop_returns des :
  wf_repos ocl_dataset_repos → Forall wf_de des →
  ∀ st, ∃ st', for_each de_body des tt st = (inr tt, st').
Proof.
  intros Hrepos.
  induction 1 as [|de des (Hcode & Hid & Hname & Hshort & Hcc & Hdses) _ IH];
    intros st; simpl.
  { by eexists. }
  unfold bind at 1. unfold DatimSyncMer.de_body at 1. py_unfold.
  destruct Hcode as [code ->], Hid as [id ->], Hname as [nm ->],
    Hshort as [short ->]. simpl.
  destruct Hcc as (cc & cocs & -> & Hcocs & Hwf). simpl. rewrite Hcocs. simpl.
  set (st1 := with_counts _ _).
  destruct (coc_loop_returns (concept_url code) cocs Hwf [] st1)
    as (urls & st2 & ->).
  destruct Hdses as (dses & -> & Hwfd). simpl.
  destruct (dse_loop_returns (concept_url code) urls dses Hrepos Hwfd st2)
    as (st3 & ->).
  apply IH.
Qed.

(** On an export that has all the fields read, with a repository table
    whose entries have ids, [dhis2diff_mer] returns, from any snapshot. *)
Lemma dhis2diff_mer_returns e snapshot :
  wf_repos ocl_dataset_repos → wf_export e →
  ∃ c snapshot', dhis2diff_mer e snapshot = (inr c, snapshot').
Proof.
  intros Hrepos (des & Hdes & Hwf).
  unfold DatimSyncMer.dhis2diff_mer, DatimSyncMer.transform. py_unfold.
  rewrite Hdes.
  destruct (de_loop_returns des Hrepos Hwf
              {| dhis2_diff := snapshot; counts := zero_counts |}) as [st ->].
  by eexists _, _.
Qed.

(** *** Dataset links *)

(** C7. A dataset-element link whose dataset id is not in
    [ocl_dataset_repos] is skipped without an error: its turn of the loop
    returns with the dictionaries and all five counters as they were, so no
    reference is created for it and nothing counts it, and the remaining
    links are processed as if the link were not there. *)
Theorem C7_unknown_dataset_skipped iurl urls (dse : DataSetElement) ds id rest st :
  dataSet dse = Some ds →
  ds_id ds = Some id →
  ocl_dataset_repos !! id = None →
  dse_body iurl urls tt dse st = (inr tt, st)
  ∧ for_each (dse_body iurl urls) (dse :: rest) tt st
    = for_each (dse_body iurl urls) rest tt st.
Proof.
  intros Hds Hid Hrepo.
  assert (Hskip : dse_body iurl urls tt dse st = (inr tt, st)).
  { unfold DatimSyncMer.dse_body. py_unfold. rewrite Hds; simpl.
    rewrite Hid; simpl. by rewrite Hrepo. }
  split; [done|]. simpl. unfold bind. by rewrite Hskip.
Qed.

(** *** The turns of the loops, case by case *)

Lemma coc_body_absent iurl urls coc d id nm st :
  coc_code coc = Some d → coc_id coc = Some id → coc_name coc = Some nm →
  concepts (dhis2_diff st) !! concept_url d = None →
  coc_body iurl urls coc st
  = (inr (urls ++ [concept_url d]),
     with_counts incr_mappings
       (set_mapping (mapping_key iurl (concept_url d))
          (disaggregate_mapping iurl (concept_url d))
          (with_counts incr_disaggregates
             (set_concept (concept_url d) (disaggregate_concept d id nm) st)))).
Proof.
  intros Hd Hid Hnm Habs. unfold DatimSyncMer.coc_body. py_unfold.
  rewrite Hd; simpl. rewrite Habs; simpl. rewrite Hid; simpl. by rewrite Hnm.
Qed.

Lemma coc_body_present iurl urls coc d st :
  coc_code coc = Some d →
  is_Some (concepts (dhis2_diff st) !! concept_url d) →
  coc_body iurl urls coc st
  = (inr (urls ++ [concept_url d]),
     with_counts incr_mappings
       (set_mapping (mapping_key iurl (concept_url d))
          (disaggregate_mapping iurl (concept_url d)) st)).
Proof.
  intros Hd [c Hc]. unfold DatimSyncMer.coc_body. py_unfold.
  rewrite Hd; simpl. by rewrite Hc.
Qed.

Lemma disaggregate_ref_body_absent collection_id url st :
  concept_refs (dhis2_diff st)
    !! (get_concept_reference_json "PEPFAR" collection_id url).1 = None →
  disaggregate_ref_body collection_id tt url st
  = (inr tt,
     with_counts incr_disaggregate_refs
       (set_concept_ref
          (get_concept_reference_json "PEPFAR" collection_id url).1
          (get_concept_reference_json "PEPFAR" collection_id url).2 st)).
Proof.
  intros Habs. unfold DatimSyncMer.disaggregate_ref_body.
  destruct (get_concept_reference_json _ _ _) as [k r]. py_unfold.
  simpl in *. by rewrite Habs.
Qed.

(** A reference key that is already present is left alone by the
    disaggregate-reference turn: the dictionaries and the counters stay as
    they were. *)
Lemma disaggregate_ref_body_present collection_id url st :
  is_Some (concept_refs (dhis2_diff st)
             !! (get_concept_reference_json "PEPFAR" collection_id url).1) →
  disaggregate_ref_body collection_id tt url st = (inr tt, st).
Proof.
  intros [r Hr]. unfold DatimSyncMer.disaggregate_ref_body.
  destruct (get_concept_reference_json _ _ _) as [k r']. py_unfold.
  simpl in Hr. by rewrite Hr.
Qed.

Lemma dse_body_known iurl urls dse ds id repo collection_id st :
  dataSet dse = Some ds → ds_id ds = Some id →
  ocl_dataset_repos !! id = Some repo → repo_id repo = Some collection_id →
  dse_body iurl urls tt dse st
  = for_each (disaggregate_ref_body collection_id) urls tt
      (with_counts incr_indicator_refs
         (set_concept_ref
            (get_concept_reference_json "PEPFAR" collection_id iurl).1
            (get_concept_reference_json "PEPFAR" collection_id iurl).2 st)).
Proof.
  intros Hds Hid Hrepo Hcol. unfold DatimSyncMer.dse_body. py_unfold.
  rewrite Hds; simpl. rewrite Hid; simpl. rewrite Hrepo, Hcol; simpl.
  by destruct (get_concept_reference_json _ _ _) as [k r].
Qed.

Lemma de_body_fields de code id nm short cc cocs dses st :
  de_code de = Some code → de_id de = Some id → de_name de = Some nm →
  de_shortName de = Some short → categoryCombo de = Some cc →
  categoryOptionCombos cc = Some cocs → dataSetElements de = Some dses →
  de_body tt de st
  = (let! urls := for_each (coc_body (concept_url code)) cocs [] in
     for_each (dse_body (concept_url code) urls) dses tt)
      (with_counts incr_indicators
         (set_concept (concept_url code)
            (indicator_concept code id nm short (de_description de)) st)).
Proof.
  intros Hcode Hid Hnm Hshort Hcc Hcocs Hdses.
  unfold DatimSyncMer.de_body. py_unfold.
  rewrite Hcode; simpl. rewrite Hid; simpl. rewrite Hnm; simpl.
  rewrite Hshort; simpl. rewrite Hcc; simpl. rewrite Hcocs; simpl.
  destruct (for_each _ cocs [] _) as [[e|urls] st2]; [done|].
  by rewrite Hdses.
Qed.

(** *** One data element, one option combo, one dataset link *)

(** C6. An export with one data element, one category-option-combo whose
    code differs from the data element's, and one dataset link whose
    dataset is in the table, the reference keys of the two concepts being
    distinct, is transformed from the empty snapshot into exactly one
    Indicator concept, one Disaggregate concept, one 'Has Option' mapping
    and two concept references in the mapped collection, each counter being
    one; and a disaggregate reference whose key is already present is not
    stored again nor counted. *)
Theorem C6_single_element_export id code nm short desc cid ccode cname dsid repo col :
  let coc := {| coc_id := Some cid; coc_code := Some ccode; coc_name := Some cname |} in
  let link := {| dataSet := Some {| ds_id := Some dsid |} |} in
  let de := {| de_id := Some id; de_code := Some code; de_name := Some nm;
               de_shortName := Some short; de_description := desc;
               categoryCombo := Some {| categoryOptionCombos := Some [coc] |};
               dataSetElements := Some [link] |} in
  let iurl := concept_url code in
  let durl := concept_url ccode in
  let iref := get_concept_reference_json "PEPFAR" col iurl in
  let dref := get_concept_reference_json "PEPFAR" col durl in
  let snapshot :=
    {| concepts :=
         <[durl := disaggregate_concept ccode cid cname]>
           {[ iurl := indicator_concept code id nm short desc ]};
       mappings := {[ mapping_key iurl durl := disaggregate_mapping iurl durl ]};
       concept_refs := <[dref.1 := dref.2]> {[ iref.1 := iref.2 ]} |} in
  code ≠ ccode →
  ocl_dataset_repos !! dsid = Some repo →
  repo_id repo = Some col →
  iref.1 ≠ dref.1 →
  dhis2diff_mer {| dataElements := Some [de] |} empty_snapshot
  = (inr {| num_indicators := 1; num_disaggregates := 1; num_mappings := 1;
            num_indicator_refs := 1; num_disaggregate_refs := 1 |}, snapshot)
  ∧ size (concepts snapshot) = 2
  ∧ size (filter (λ kc, concept_class kc.2 = "Indicator") (concepts snapshot)) = 1
  ∧ size (filter (λ kc, concept_class kc.2 = "Disaggregate") (concepts snapshot)) = 1
  ∧ size (mappings snapshot) = 1
  ∧ size (concept_refs snapshot) = 2
  ∧ (∀ collection_id url st,
       is_Some (concept_refs (dhis2_diff st)
                  !! (get_concept_reference_json "PEPFAR" collection_id url).1) →
       disaggregate_ref_body collection_id tt url st = (inr tt, st)).
Proof.
  intros coc link de iurl durl iref dref snapshot Hne Hrepo Hcol Hkeys.
  assert (Hurl : iurl ≠ durl) by (by intros ?%concept_url_inj).
  split; [|repeat split].
  - unfold DatimSyncMer.dhis2diff_mer, DatimSyncMer.transform. simpl.
    rewrite bind_unfold. unfold ret at 1. rewrite for_each_cons.
    rewrite (de_body_fields de code id nm short
               {| categoryOptionCombos := Some [coc] |} [coc] [link]); try done.
    rewrite bind_unfold, for_each_cons.
    rewrite (coc_body_absent _ _ coc ccode cid cname); try done; cycle 1.
    { simpl. by rewrite lookup_insert_ne, lookup_empty. }
    rewrite for_each_nil, for_each_cons. cbn [app].
    rewrite (dse_body_known _ _ link {| ds_id := Some dsid |} dsid repo col);
      try done.
    rewrite for_each_cons.
    rewrite disaggregate_ref_body_absent; cycle 1.
    { simpl. by rewrite lookup_insert_ne, lookup_empty. }
    by rewrite !for_each_nil.
  - simpl. rewrite map_size_insert_None; [by rewrite map_size_singleton|].
    by rewrite lookup_singleton_ne.
  - simpl. rewrite map_filter_insert_not'; [| done |].
    + by rewrite map_filter_singleton_True, map_size_singleton.
    + intros c. by rewrite lookup_singleton_ne.
  - simpl. rewrite map_filter_insert_True by done.
    rewrite map_filter_singleton_False by done.
    by rewrite insert_empty, map_size_singleton.
  - simpl. by rewrite map_size_singleton.
  - simpl. rewrite map_size_insert_None; [by rewrite map_size_singleton|].
    by rewrite lookup_singleton_ne.
  - intros collection_id url st. apply disaggregate_ref_body_present.
Qed.

(** *** What a successful turn has done *)

Lemma coc_body_inv iurl urls coc st urls1 st1 :
  coc_body iurl urls coc st = (inr urls1, st1) →
  ∃ d, coc_code coc = Some d ∧ urls1 = urls ++ [concept_url d] ∧
    mappings (dhis2_diff st1)
    = <[mapping_key iurl (concept_url d) := disaggregate_mapping iurl (concept_url d)]>
        (mappings (dhis2_diff st)) ∧
    concept_refs (dhis2_diff st1) = concept_refs (dhis2_diff st) ∧
    ((is_Some (concepts (dhis2_diff st) !! concept_url d) ∧
      concepts (dhis2_diff st1) = concepts (dhis2_diff st))
     ∨ (concepts (dhis2_diff st) !! concept_url d = None ∧
        ∃ id nm, coc_id coc = Some id ∧ coc_name coc = Some nm ∧
          concepts (dhis2_diff st1)
          = <[concept_url d := disaggregate_concept d id nm]>
              (concepts (dhis2_diff st)))).
Proof.
  destruct (coc_code coc) as [d|] eqn:Hd.
  - destruct (concepts (dhis2_diff st) !! concept_url d) as [c|] eqn:Hc.
    + rewrite (coc_body_present _ _ _ d) by eauto. intros [= <- <-].
      exists d. repeat split; try done. left. eauto.
    + destruct (coc_id coc) as [id|] eqn:Hid;
        [destruct (coc_name coc) as [nm|] eqn:Hnm|].
      * rewrite (coc_body_absent _ _ _ d id nm) by done. intros [= <- <-].
        exists d. repeat split; try done. right. split; [done|]. by exists id, nm.
      * unfold DatimSyncMer.coc_body. py_unfold.
        rewrite Hd; simpl. rewrite Hc; simpl. rewrite Hid; simpl. by rewrite Hnm.
      * unfold DatimSyncMer.coc_body. py_unfold.
        rewrite Hd; simpl. rewrite Hc; simpl. by rewrite Hid.
  - unfold DatimSyncMer.coc_body. py_unfold. by rewrite Hd.
Qed.

Lemma de_body_inv de st st1 :
  de_body tt de st = (inr tt, st1) →
  ∃ code id nm short cc cocs dses urls st_a,
    de_code de = Some code ∧ de_id de = Some id ∧ de_name de = Some nm ∧
    de_shortName de = Some short ∧ categoryCombo de = Some cc ∧
    categoryOptionCombos cc = Some cocs ∧ dataSetElements de = Some dses ∧
    for_each (coc_body (concept_url code)) cocs []
      (with_counts incr_indicators
         (set_concept (concept_url code)
            (indicator_concept code id nm short (de_description de)) st))
    = (inr urls, st_a) ∧
    for_each (dse_body (concept_url code) urls) dses tt st_a = (inr tt, st1).
Proof.
  unfold DatimSyncMer.de_body. py_unfold.
  destruct (de_code de) as [code|]; simpl; [|done].
  destruct (de_id de) as [id|]; simpl; [|done].
  destruct (de_name de) as [nm|]; simpl; [|done].
  destruct (de_shortName de) as [short|]; simpl; [|done].
  destruct (categoryCombo de) as [cc|] eqn:Hcc; simpl; [|done].
  destruct (categoryOptionCombos cc) as [cocs|] eqn:Hcocs; simpl; [|done].
  destruct (for_each _ cocs [] _) as [[e|urls] st_a] eqn:Hloop; [done|].
  destruct (dataSetElements de) as [dses|]; simpl; [|done].
  intros Hrefs. by exists code, id, nm, short, cc, cocs, dses, urls, st_a.
Qed.

(** The reference loop changes neither concepts nor mappings. *)
Lemma dse_loop_keeps iurl urls dses st st1 :
  for_each (dse_body iurl urls) dses tt st = (inr tt, st1) →
  concepts (dhis2_diff st1) = concepts (dhis2_diff st) ∧
  mappings (dhis2_diff st1) = mappings (dhis2_diff st).
Proof.
  intros Hloop.
  pose proof (dse_loop_frame iurl urls dses
    (λ s, concepts s = concepts (dhis2_diff st) ∧
          mappings s = mappings (dhis2_diff st))
    (λ s k r H, H) st (conj eq_refl eq_refl)) as H.
  by rewrite Hloop in H.
Qed.

(** *** First occurrence of a disaggregate wins *)

Lemma concept_outcome_nil d before : concept_outcome d [] before before.
Proof. destruct before; simpl; [done|]. left. by split. Qed.

Lemma concept_outcome_app d l1 l2 a b c :
  concept_outcome d l1 a b → concept_outcome d l2 b c →
  concept_outcome d (l1 ++ l2) a c.
Proof.
  destruct a as [x|]; simpl.
  { intros ->. done. }
  intros [[Hl1 ->] | (c0 & id & nm & (pre & post & -> & Hpre & Hc0) & Hid & Hnm & ->)].
  - simpl. intros [[Hl2 ->] | (c0 & id & nm & (pre & post & -> & Hpre & Hc0) & Hid & Hnm & ->)].
    + left. split; [|done]. by apply Forall_app.
    + right. exists c0, id, nm. repeat split; try done.
      exists (l1 ++ pre), post. rewrite <-app_assoc.
      repeat split; try done. by apply Forall_app.
  - simpl. intros ->. right. exists c0, id, nm. repeat split; try done.
    exists pre, (post ++ l2). by rewrite <-app_assoc.
Qed.

Lemma coc_body_concept d iurl urls coc st urls1 st1 :
  coc_body iurl urls coc st = (inr urls1, st1) →
  concept_outcome d [coc]
    (concepts (dhis2_diff st) !! concept_url d)
    (concepts (dhis2_diff st1) !! concept_url d).
Proof.
  intros (d' & Hd' & _ & _ & _ & Hcases)%coc_body_inv.
  destruct Hcases as [[Hpresent ->] | (Habsent & id & nm & Hid & Hnm & ->)].
  - destruct (concepts (dhis2_diff st) !! concept_url d) as [c|] eqn:Hc;
      simpl; [done|].
    left. split; [|done]. constructor; [|done].
    intros ?. simplify_eq. rewrite Hc in Hpresent. by destruct Hpresent.
  - destruct (decide (d' = d)) as [->|Hne].
    + rewrite Habsent, lookup_insert_eq. simpl. right.
      exists coc, id, nm. repeat split; try done. by exists [], [].
    + rewrite lookup_insert_ne by (by intros ?%concept_url_inj).
      destruct (concepts (dhis2_diff st) !! concept_url d) as [c|] eqn:Hc;
        simpl; [done|].
      left. split; [|done]. constructor; [congruence | done].
Qed.

Lemma coc_loop_concept d iurl cocs : ∀ urls st urls' st',
  for_each (coc_body iurl) cocs urls st = (inr urls', st') →
  concept_outcome d cocs
    (concepts (dhis2_diff st) !! concept_url d)
    (concepts (dhis2_diff st') !! concept_url d).
Proof.
  induction cocs as [|coc cocs IH]; intros urls st urls' st'.
  - rewrite for_each_nil. intros [= <- <-]. apply concept_outcome_nil.
  - rewrite for_each_cons.
    destruct (coc_body iurl urls coc st) as [[e|urls1] st1] eqn:Hstep; [done|].
    intros Hrest. apply (concept_outcome_app d [coc] cocs _
      (concepts (dhis2_diff st1) !! concept_url d)).
    + by eapply coc_body_concept.
    + by eapply IH.
Qed.

Lemma cocs_of_fields de cc cocs :
  categoryCombo de = Some cc → categoryOptionCombos cc = Some cocs →
  cocs_of de = cocs.
Proof. unfold cocs_of. by intros -> ->. Qed.

Lemma de_body_concept d de st st1 :
  de_code de ≠ Some d →
  de_body tt de st = (inr tt, st1) →
  concept_outcome d (cocs_of de)
    (concepts (dhis2_diff st) !! concept_url d)
    (concepts (dhis2_diff st1) !! concept_url d).
Proof.
  intros Hne (code & id & nm & short & cc & cocs & dses & urls & st_a &
    Hcode & _ & _ & _ & Hcc & Hcocs & _ & Hloop & Hrefs)%de_body_inv.
  rewrite (cocs_of_fields de cc cocs) by done.
  apply dse_loop_keeps in Hrefs as [-> _].
  apply (coc_loop_concept d) in Hloop. simpl in Hloop.
  rewrite lookup_insert_ne in Hloop; [done|].
  intros ->%concept_url_inj. congruence.
Qed.

Lemma de_loop_concept d des : ∀ st st',
  (∀ de, de ∈ des → de_code de ≠ Some d) →
  for_each de_body des tt st = (inr tt, st') →
  concept_outcome d (all_cocs des)
    (concepts (dhis2_diff st) !! concept_url d)
    (concepts (dhis2_diff st') !! concept_url d).
Proof.
  induction des as [|de des IH]; intros st st' Hcodes.
  - rewrite for_each_nil. intros [= <-]. apply concept_outcome_nil.
  - rewrite for_each_cons.
    destruct (de_body tt de st) as [[e|[]] st1] eqn:Hstep; [done|].
    intros Hrest. unfold all_cocs. rewrite fmap_cons. simpl.
    apply (concept_outcome_app d _ _ _
      (concepts (dhis2_diff st1) !! concept_url d)).
    + apply de_body_concept; [|done]. apply Hcodes. by left.
    + apply IH; [|done]. intros de' Hin. apply Hcodes. by right.
Qed.

(** *** One mapping for each indicator and disaggregate *)

Lemma coc_loop_mappings (P : gmap string Mapping → Prop) iurl cocs :
  (∀ m d, P m →
     P (<[mapping_key iurl (concept_url d)
          := disaggregate_mapping iurl (concept_url d)]> m)) →
  ∀ urls st urls' st',
  for_each (coc_body iurl) cocs urls st = (inr urls', st') →
  P (mappings (dhis2_diff st)) → P (mappings (dhis2_diff st')).
Proof.
  intros HP. induction cocs as [|coc cocs IH]; intros urls st urls' st'.
  - rewrite for_each_nil. by intros [= <- <-].
  - rewrite for_each_cons.
    destruct (coc_body iurl urls coc st) as [[e|urls1] st1] eqn:Hstep; [done|].
    intros Hrest Hst. eapply IH; [done|].
    apply coc_body_inv in Hstep as (d & _ & _ & -> & _). by apply HP.
Qed.

Lemma de_loop_mappings (P : gmap string Mapping → Prop) des :
  (∀ m de code d, de ∈ des → de_code de = Some code → P m →
     P (<[mapping_key (concept_url code) (concept_url d)
          := disaggregate_mapping (concept_url code) (concept_url d)]> m)) →
  ∀ st st',
  for_each de_body des tt st = (inr tt, st') →
  P (mappings (dhis2_diff st)) → P (mappings (dhis2_diff st')).
Proof.
  induction des as [|de des IH]; intros HP st st'.
  - rewrite for_each_nil. by intros [= <-].
  - rewrite for_each_cons.
    destruct (de_body tt de st) as [[e|[]] st1] eqn:Hstep; [done|].
    intros Hrest Hst. eapply IH; [|done|].
    { intros m de' code d Hin. apply HP. by right. }
    apply de_body_inv in Hstep as (code & id & nm & short & cc & cocs & dses &
      urls & st_a & Hcode & _ & _ & _ & _ & _ & _ & Hloop & Hrefs).
    apply dse_loop_keeps in Hrefs as [_ ->].
    eapply (coc_loop_mappings P); [|done|done].
    intros m d. apply (HP m de code d); [by left | done].
Qed.

Lemma coc_loop_mapping_stored iurl coc d cocs : ∀ urls st urls' st',
  coc ∈ cocs → coc_code coc = Some d →
  for_each (coc_body iurl) cocs urls st = (inr urls', st') →
  is_Some (mappings (dhis2_diff st') !! mapping_key iurl (concept_url d)).
Proof.
  induction cocs as [|coc' cocs IH]; intros urls st urls' st' Hin Hd.
  { by apply elem_of_nil in Hin. }
  rewrite for_each_cons.
  destruct (coc_body iurl urls coc' st) as [[e|urls1] st1] eqn:Hstep; [done|].
  intros Hrest. apply elem_of_cons in Hin as [<- | Hin]; [|by eapply IH].
  apply coc_body_inv in Hstep as (d' & Hd' & _ & Hmap & _).
  assert (d' = d) as -> by congruence.
  eapply (coc_loop_mappings
    (λ m, is_Some (m !! mapping_key iurl (concept_url d)))); [|done|].
  - intros m d' Hm. rewrite lookup_insert_is_Some'. by right.
  - rewrite Hmap, lookup_insert_is_Some'. by left.
Qed.

Lemma de_loop_mapping_stored de code coc d des : ∀ st st',
  de ∈ des → de_code de = Some code →
  coc ∈ cocs_of de → coc_code coc = Some d →
  for_each de_body des tt st = (inr tt, st') →
  is_Some (mappings (dhis2_diff st')
             !! mapping_key (concept_url code) (concept_url d)).
Proof.
  induction des as [|de' des IH]; intros st st' Hin Hcode Hcoc Hd.
  { by apply elem_of_nil in Hin. }
  rewrite for_each_cons.
  destruct (de_body tt de' st) as [[e|[]] st1] eqn:Hstep; [done|].
  intros Hrest. apply elem_of_cons in Hin as [<- | Hin]; [|by eapply IH].
  apply de_body_inv in Hstep as (code' & id & nm & short & cc & cocs & dses &
    urls & st_a & Hcode' & _ & _ & _ & Hcc & Hcocs & _ & Hloop & Hrefs).
  assert (code' = code) as -> by congruence.
  rewrite (cocs_of_fields de cc cocs) in Hcoc by done.
  apply dse_loop_keeps in Hrefs as [_ Hsame].
  eapply (de_loop_mappings
    (λ m, is_Some (m !! mapping_key (concept_url code) (concept_url d))));
    [|done|].
  - intros m de' code' d' _ _ Hm. rewrite lookup_insert_is_Some'. by right.
  - rewrite Hsame. by eapply coc_loop_mapping_stored.
Qed.

Lemma de_loop_mappings_from des0 des st st' :
  (∀ de, de ∈ des → de ∈ des0) →
  for_each de_body des tt st = (inr tt, st') →
  mappings_from des0 (mappings (dhis2_diff st)) →
  mappings_from des0 (mappings (dhis2_diff st')).
Proof.
  intros Hsub. apply (de_loop_mappings (mappings_from des0)).
  intros m de code d Hin Hcode Hm k v. rewrite lookup_insert.
  case_decide; [|apply Hm].
  intros [= <-]. exists code, d. repeat split; [|done].
  exists de. split; [by apply Hsub | done].
Qed.

Lemma elem_of_all_cocs coc de des :
  de ∈ des → coc ∈ cocs_of de → coc ∈ all_cocs des.
Proof.
  intros Hde Hcoc. unfold all_cocs. apply list_elem_of_In, in_concat.
  exists (cocs_of de). split; apply list_elem_of_In; [|done].
  by apply list_elem_of_fmap_2.
Qed.

Lemma dhis2diff_mer_inv e snapshot c snapshot' :
  dhis2diff_mer e snapshot = (inr c, snapshot') →
  ∃ des st',
    dataElements e = Some des ∧
    for_each de_body des tt {| dhis2_diff := snapshot; counts := zero_counts |}
    = (inr tt, st') ∧
    c = counts st' ∧ snapshot' = dhis2_diff st'.
Proof.
  unfold DatimSyncMer.dhis2diff_mer, DatimSyncMer.transform.
  rewrite bind_unfold. unfold getitem.
  destruct (dataElements e) as [des|]; [|done]. unfold ret at 1.
  destruct (for_each _ des tt _) as [[err|[]] st'] eqn:Hloop; [done|].
  intros [= <- <-]. by exists des, st'.
Qed.

(** C1. Let an export be transformed from the empty snapshot, and let two
    of its data elements, with distinct codes, each have a
    category-option-combo with code [d], no data element having [d] as its
    own code.  Then the concept partition holds, under the key of [d], the
    one Disaggregate record built from the first option combo with code [d]
    in document order (later ones do not replace it), and the mapping
    partition holds a 'Has Option' record, stored under the key made of its
    own two urls, under each of the two distinct keys of the two
    (indicator, disaggregate) pairs; when no code of a data element
    contains a slash, that record is the mapping from the indicator to the
    disaggregate. *)
Theorem C1_shared_disaggregate (e : Dhis2Export) des de1 de2 i1 i2 c1 c2 d c s' :
  dataElements e = Some des →
  dhis2diff_mer e empty_snapshot = (inr c, s') →
  de1 ∈ des → de2 ∈ des →
  de_code de1 = Some i1 → de_code de2 = Some i2 → i1 ≠ i2 →
  c1 ∈ cocs_of de1 → c2 ∈ cocs_of de2 →
  coc_code c1 = Some d → coc_code c2 = Some d →
  (∀ de, de ∈ des → de_code de ≠ Some d) →
  (∃ c0 id nm,
     first_with_code d (all_cocs des) c0 ∧
     coc_id c0 = Some id ∧ coc_name c0 = Some nm ∧
     concepts s' !! concept_url d = Some (disaggregate_concept d id nm) ∧
     concept_class (disaggregate_concept d id nm) = "Disaggregate")
  ∧ mapping_key (concept_url i1) (concept_url d)
    ≠ mapping_key (concept_url i2) (concept_url d)
  ∧ (∀ i, i = i1 ∨ i = i2 →
       ∃ m, mappings s' !! mapping_key (concept_url i) (concept_url d) = Some m ∧
         map_type m = "Has Option" ∧
         mapping_key (from_concept_url m) (to_concept_url m)
         = mapping_key (concept_url i) (concept_url d) ∧
         ((∀ de code, de ∈ des → de_code de = Some code → slash_free code) →
          m = disaggregate_mapping (concept_url i) (concept_url d))).
Proof.
  intros Hdes Hrun Hde1 Hde2 Hi1 Hi2 Hne Hc1 Hc2 Hd1 Hd2 Hcodes.
  apply dhis2diff_mer_inv in Hrun as (des' & st' & Hdes' & Hloop & _ & ->).
  assert (des' = des) as -> by congruence.
  split; [|split].
  - pose proof (de_loop_concept d des _ _ Hcodes Hloop) as Hout.
    simpl in Hout. rewrite lookup_empty in Hout. simpl in Hout.
    destruct Hout as [[Hnone _] | (c0 & id & nm & Hfirst & Hid & Hnm & Hc0)].
    + rewrite Forall_forall in Hnone.
      destruct (Hnone c1); [by apply (elem_of_all_cocs c1 de1 des) | done].
    + by exists c0, id, nm.
  - by intros ?%mapping_key_inj_from%concept_url_inj.
  - intros i Hi.
    assert (∃ de, de ∈ des ∧ de_code de = Some i) as (de & Hde & Hi').
    { destruct Hi as [-> | ->]; eauto. }
    assert (is_Some (mappings (dhis2_diff st')
                       !! mapping_key (concept_url i) (concept_url d))) as [m Hm].
    { destruct Hi as [-> | ->].
      - apply (de_loop_mapping_stored de1 i1 c1 d des _ st' Hde1 Hi1 Hc1 Hd1 Hloop).
      - apply (de_loop_mapping_stored de2 i2 c2 d des _ st' Hde2 Hi2 Hc2 Hd2 Hloop). }
    exists m. split; [done|].
    assert (mappings_from des (mappings (dhis2_diff st'))) as Hfrom.
    { eapply (de_loop_mappings_from des des); [done|done|].
      intros k v. simpl. by rewrite lookup_empty. }
    destruct (Hfrom _ _ Hm) as (code & dd & (de' & Hde' & Hcode') & Hk & ->).
    simpl. repeat split; [done|].
    intros Hfree.
    apply mapping_key_inj in Hk as [-> ->];
      [done | by apply (Hfree de) | by apply (Hfree de')].
Qed.

(** *** Running the transformer again changes nothing *)

Lemma snapshot_eq (s t : Snapshot) :
  concepts s = concepts t → mappings s = mappings t →
  concept_refs s = concept_refs t → s = t.
Proof. destruct s, t; simpl. by intros -> -> ->. Qed.

Lemma exec_app ws1 ws2 s : exec (ws1 ++ ws2) s = exec ws2 (exec ws1 s).
Proof. unfold exec. apply foldl_app. Qed.

Lemma concepts_exec ws : ∀ s,
  concepts (exec ws s) = mexec (concept_ops ws) (concepts s).
Proof. induction ws as [|[o|o|o] ws IH]; intros s; simpl; [done|..]; by rewrite IH. Qed.

Lemma mappings_exec ws : ∀ s,
  mappings (exec ws s) = mexec (mapping_ops ws) (mappings s).
Proof. induction ws as [|[o|o|o] ws IH]; intros s; simpl; [done|..]; by rewrite IH. Qed.

Lemma concept_refs_exec ws : ∀ s,
  concept_refs (exec ws s) = mexec (ref_ops ws) (concept_refs s).
Proof. induction ws as [|[o|o|o] ws IH]; intros s; simpl; [done|..]; by rewrite IH. Qed.

Lemma mstep_lookup {V} (m : gmap string V) o k :
  mstep m o !! k = kstep k (m !! k) o.
Proof.
  destruct o as [k' v|k' v]; simpl.
  - rewrite lookup_insert. by case_decide.
  - destruct (m !! k') as [x|] eqn:Hx.
    + case_decide; [|done]. subst. by rewrite Hx.
    + rewrite lookup_insert. case_decide; [|done]. subst. by rewrite Hx.
Qed.

Lemma mexec_lookup {V} (os : list (mop V)) : ∀ m k,
  mexec os m !! k = foldl (kstep k) (m !! k) os.
Proof.
  unfold mexec. induction os as [|o os IH]; intros m k; simpl; [done|].
  by rewrite IH, mstep_lookup.
Qed.

(** Under one key, a list of writes either ends on the same entry whatever
    it started from, or leaves an existing entry alone. *)
Lemma kfold_shape {V} k (os : list (mop V)) :
  (∃ v, ∀ cur, foldl (kstep k) cur os = Some v)
  ∨ (∀ x, foldl (kstep k) (Some x) os = Some x).
Proof.
  induction os as [|o os IH]; simpl; [by right|].
  destruct IH as [[v Hv] | Hkeep]; [left; by exists v|].
  destruct o as [k' v|k' v]; simpl.
  - destruct (decide (k' = k)); [|by right].
    left. exists v. intros cur. apply Hkeep.
  - right. intros x. destruct (decide (k' = k)); apply Hkeep.
Qed.

Lemma kfold_idem {V} k (os : list (mop V)) cur :
  foldl (kstep k) (foldl (kstep k) cur os) os = foldl (kstep k) cur os.
Proof.
  destruct (kfold_shape k os) as [[v Hv] | Hkeep].
  - by rewrite !Hv.
  - destruct (foldl (kstep k) cur os) as [x|] eqn:Hcur; [apply Hkeep|].
    destruct cur as [x|]; [by rewrite Hkeep in Hcur | done].
Qed.

Lemma mexec_idem {V} (os : list (mop V)) m : mexec os (mexec os m) = mexec os m.
Proof. apply map_eq. intros k. rewrite !mexec_lookup. apply kfold_idem. Qed.

Lemma exec_idem ws s : exec ws (exec ws s) = exec ws s.
Proof.
  apply snapshot_eq.
  - rewrite !concepts_exec. apply mexec_idem.
  - rewrite !mappings_exec. apply mexec_idem.
  - rewrite !concept_refs_exec. apply mexec_idem.
Qed.

Lemma mstep_is_Some {V} (m : gmap string V) o k :
  is_Some (m !! k) → is_Some (mstep m o !! k).
Proof.
  intros [x Hx]. rewrite mstep_lookup, Hx.
  destruct o; simpl; case_decide; eauto.
Qed.

Lemma concepts_le_refl s : concepts_le s s.
Proof. by intros k. Qed.

Lemma concepts_le_apply_write s t w :
  concepts_le s t → concepts_le (apply_write s w) (apply_write t w).
Proof.
  intros Hle k. destruct w as [o|o|o]; simpl; [|apply Hle..].
  rewrite !mstep_lookup. specialize (Hle k).
  destruct (concepts s !! k) as [x|].
  - destruct Hle as [y ->]; [by eauto|].
    intros _. destruct o; simpl; case_decide; eauto.
  - destruct (concepts t !! k) as [y|]; [|done].
    intros _. destruct o; simpl; case_decide; eauto.
Qed.

Lemma concepts_le_exec ws : ∀ s t,
  concepts_le s t → concepts_le (exec ws s) (exec ws t).
Proof.
  induction ws as [|w ws IH]; intros s t Hle; simpl; [done|].
  by apply IH, concepts_le_apply_write.
Qed.

Lemma concepts_le_grows ws : ∀ s, concepts_le s (exec ws s).
Proof.
  induction ws as [|w ws IH]; intros s; simpl; [apply concepts_le_refl|].
  intros k Hk. apply IH. destruct w as [o|o|o]; simpl; [|done..].
  by apply mstep_is_Some.
Qed.

Lemma replayable_ret {A} (a : A) : replayable (ret a).
Proof.
  intros s a' s' [= <- <-]. exists []. split; [done|].
  intros t _. by exists t.
Qed.

Lemma replayable_getitem {A} (field : option A) key : replayable (getitem field key).
Proof. destruct field; [apply replayable_ret | by intros s a s']. Qed.

Lemma replayable_bind {A B} (m : Py State A) (f : A → Py State B) :
  replayable m → (∀ a, replayable (f a)) → replayable (bind m f).
Proof.
  intros Hm Hf s b s2. rewrite bind_unfold.
  destruct (m s) as [[e|a] s1] eqn:Hms; [done|]. intros Hfs.
  destruct (Hm _ _ _ Hms) as (ws1 & Hs1 & Hreplay1).
  destruct (Hf a _ _ _ Hfs) as (ws2 & Hs2 & Hreplay2).
  exists (ws1 ++ ws2). split.
  { by rewrite exec_app, <-Hs1. }
  intros t Hle. destruct (Hreplay1 t Hle) as (t1 & Hmt & Ht1).
  destruct (Hreplay2 t1) as (t2 & Hft & Ht2).
  { rewrite Hs1, Ht1. by apply concepts_le_exec. }
  exists t2. rewrite bind_unfold, Hmt. split; [done|].
  by rewrite exec_app, <-Ht1.
Qed.

Lemma replayable_for_each {A B} (body : B → A → Py State B) xs :
  (∀ b x, replayable (body b x)) → ∀ b, replayable (for_each body xs b).
Proof.
  intros Hbody. induction xs as [|x xs IH]; intros b; simpl.
  - apply replayable_ret.
  - by apply replayable_bind.
Qed.

Lemma replayable_counts f : replayable (modify (with_counts f)).
Proof.
  intros s a s' [= <- <-]. exists []. split; [done|].
  intros t _. by eexists.
Qed.

Lemma replayable_set_concept k c : replayable (modify (set_concept k c)).
Proof.
  intros s a s' [= <- <-]. exists [OnConcepts (MSet k c)]. split; [done|].
  intros t _. by eexists.
Qed.

Lemma replayable_set_concept_ref k r : replayable (modify (set_concept_ref k r)).
Proof.
  intros s a s' [= <- <-]. exists [OnRefs (MSet k r)]. split; [done|].
  intros t _. by eexists.
Qed.

Lemma replayable_coc_body iurl urls coc : replayable (coc_body iurl urls coc).
Proof.
  intros s urls1 s1 Hs.
  destruct (coc_body_inv _ _ _ _ _ _ Hs) as (d & Hd & -> & Hmap & Hrefs & Hcases).
  destruct Hcases as [[Hpresent Hsame] | (Habsent & id & nm & Hid & Hnm & Hnew)].
  - exists [OnMappings (MSet (mapping_key iurl (concept_url d))
                          (disaggregate_mapping iurl (concept_url d)))].
    split; [by apply snapshot_eq|].
    intros t Hle. eexists. split.
    + apply coc_body_present; [done|]. by apply Hle.
    + done.
  - exists [OnConcepts (MAdd (concept_url d) (disaggregate_concept d id nm));
            OnMappings (MSet (mapping_key iurl (concept_url d))
                          (disaggregate_mapping iurl (concept_url d)))].
    split.
    { apply snapshot_eq; simpl; [|done..]. by rewrite Habsent. }
    intros t _.
    destruct (concepts (dhis2_diff t) !! concept_url d) as [c|] eqn:Hc.
    + eexists. split; [apply coc_body_present; eauto|].
      apply snapshot_eq; simpl; [|done..]. by rewrite Hc.
    + eexists. split; [by apply (coc_body_absent _ _ _ d id nm)|].
      apply snapshot_eq; simpl; [|done..]. by rewrite Hc.
Qed.

Lemma replayable_disaggregate_ref_body collection_id url :
  replayable (disaggregate_ref_body collection_id tt url).
Proof.
  set (k := (get_concept_reference_json "PEPFAR" collection_id url).1).
  set (r := (get_concept_reference_json "PEPFAR" collection_id url).2).
  assert (Hany : ∀ t, ∃ t',
    disaggregate_ref_body collection_id tt url t = (inr tt, t') ∧
    dhis2_diff t' = exec [OnRefs (MAdd k r)] (dhis2_diff t)).
  { intros t. destruct (concept_refs (dhis2_diff t) !! k) as [x|] eqn:Hx.
    - exists t. split; [apply disaggregate_ref_body_present; by eauto|].
      apply snapshot_eq; simpl; [done..|]. by rewrite Hx.
    - eexists. split; [by apply disaggregate_ref_body_absent|].
      apply snapshot_eq; simpl; [done..|]. by rewrite Hx. }
  intros s [] s' Hs. exists [OnRefs (MAdd k r)].
  destruct (Hany s) as (s'' & Hs'' & Hdiff).
  split; [congruence|]. intros t _. apply Hany.
Qed.

Lemma replayable_dse_body iurl urls dse : replayable (dse_body iurl urls tt dse).
Proof.
  unfold DatimSyncMer.dse_body.
  apply replayable_bind; [apply replayable_getitem|]. intros ds.
  apply replayable_bind; [apply replayable_getitem|]. intros id.
  destruct (ocl_dataset_repos !! id) as [repo|]; [|apply replayable_ret].
  apply replayable_bind; [apply replayable_getitem|]. intros collection_id.
  destruct (get_concept_reference_json _ _ _) as [k r].
  apply replayable_bind; [apply replayable_set_concept_ref|]. intros _.
  apply replayable_bind; [apply replayable_counts|]. intros _.
  apply replayable_for_each. intros [] url.
  apply replayable_disaggregate_ref_body.
Qed.

Lemma replayable_de_body de : replayable (de_body tt de).
Proof.
  unfold DatimSyncMer.de_body.
  apply replayable_bind; [apply replayable_getitem|]. intros code.
  apply replayable_bind; [apply replayable_getitem|]. intros id.
  apply replayable_bind; [apply replayable_getitem|]. intros nm.
  apply replayable_bind; [apply replayable_getitem|]. intros short.
  apply replayable_bind; [apply replayable_set_concept|]. intros _.
  apply replayable_bind; [apply replayable_counts|]. intros _.
  apply replayable_bind; [apply replayable_getitem|]. intros cc.
  apply replayable_bind; [apply replayable_getitem|]. intros cocs.
  apply replayable_bind.
  { apply replayable_for_each. intros urls coc. apply replayable_coc_body. }
  intros urls.
  apply replayable_bind; [apply replayable_getitem|]. intros dses.
  apply replayable_for_each. intros [] dse. apply replayable_dse_body.
Qed.

Lemma replayable_transform e : replayable (transform e).
Proof.
  unfold DatimSyncMer.transform.
  apply replayable_bind; [apply replayable_getitem|]. intros des.
  apply replayable_for_each. intros [] de. apply replayable_de_body.
Qed.

(** C4. When [dhis2diff_mer] has transformed an export, from the empty
    snapshot or any other, running it again on the same export and on the
    snapshot it produced returns again and leaves that snapshot exactly as
    it was, in every partition. *)
Theorem C4_transform_idempotent (e : Dhis2Export) snapshot c1 snapshot1 :
  dhis2diff_mer e snapshot = (inr c1, snapshot1) →
  ∃ c2, dhis2diff_mer e snapshot1 = (inr c2, snapshot1).
Proof.
  unfold DatimSyncMer.dhis2diff_mer.
  destruct (transform e {| dhis2_diff := snapshot; counts := zero_counts |})
    as [[err|[]] st1] eqn:Hrun; [done|].
  intros [= <- <-].
  destruct (replayable_transform e _ _ _ Hrun) as (ws & Hst1 & Hreplay).
  simpl in Hst1.
  destruct (Hreplay {| dhis2_diff := dhis2_diff st1; counts := zero_counts |})
    as (st2 & Hrun2 & Hst2).
  { simpl. rewrite Hst1. apply concepts_le_grows. }
  rewrite Hrun2. exists (counts st2). f_equal.
  simpl in Hst2. rewrite Hst2, Hst1. apply exec_idem.
Qed.

(** *** Invariants of the whole transformation *)

Lemma coc_body_cases iurl urls coc st :
  (∃ e, coc_body iurl urls coc st = (inl e, st))
  ∨ (∃ d, coc_code coc = Some d ∧
       is_Some (concepts (dhis2_diff st) !! concept_url d) ∧
       coc_body iurl urls coc st
       = (inr (urls ++ [concept_url d]),
          with_counts incr_mappings
            (set_mapping (mapping_key iurl (concept_url d))
               (disaggregate_mapping iurl (concept_url d)) st)))
  ∨ (∃ d id nm, coc_code coc = Some d ∧
       coc_id coc = Some id ∧ coc_name coc = Some nm ∧
       concepts (dhis2_diff st) !! concept_url d = None ∧
       coc_body iurl urls coc st
       = (inr (urls ++ [concept_url d]),
          with_counts incr_mappings
            (set_mapping (mapping_key iurl (concept_url d))
               (disaggregate_mapping iurl (concept_url d))
               (with_counts incr_disaggregates
                  (set_concept (concept_url d)
                     (disaggregate_concept d id nm) st))))).
Proof.
  destruct (coc_code coc) as [d|] eqn:Hd.
  - destruct (concepts (dhis2_diff st) !! concept_url d) as [c|] eqn:Hc.
    + right; left. exists d. repeat split; [by eauto|].
      apply coc_body_present; eauto.
    + destruct (coc_id coc) as [id|] eqn:Hid;
        [destruct (coc_name coc) as [nm|] eqn:Hnm|].
      * right; right. exists d, id, nm. repeat split; try done.
        by apply coc_body_absent.
      * left. unfold DatimSyncMer.coc_body. py_unfold.
        rewrite Hd; simpl. rewrite Hc; simpl. rewrite Hid; simpl.
        rewrite Hnm. by eexists.
      * left. unfold DatimSyncMer.coc_body. py_unfold.
        rewrite Hd; simpl. rewrite Hc; simpl. rewrite Hid. by eexists.
  - left. unfold DatimSyncMer.coc_body. py_unfold. rewrite Hd. by eexists.
Qed.

Lemma disaggregate_ref_body_cases collection_id url st :
  (is_Some (concept_refs (dhis2_diff st)
              !! (get_concept_reference_json "PEPFAR" collection_id url).1) ∧
   disaggregate_ref_body collection_id tt url st = (inr tt, st))
  ∨ (concept_refs (dhis2_diff st)
       !! (get_concept_reference_json "PEPFAR" collection_id url).1 = None ∧
     disaggregate_ref_body collection_id tt url st
     = (inr tt,
        with_counts incr_disaggregate_refs
          (set_concept_ref
             (get_concept_reference_json "PEPFAR" collection_id url).1
             (get_concept_reference_json "PEPFAR" collection_id url).2 st))).
Proof.
  destruct (concept_refs (dhis2_diff st)
              !! (get_concept_reference_json "PEPFAR" collection_id url).1)
    as [r|] eqn:Hr.
  - left. split; [by eauto|]. apply disaggregate_ref_body_present.
    rewrite Hr. by eauto.
  - right. split; [done|]. by apply disaggregate_ref_body_absent.
Qed.

Section Invariant.

Variable Inv : State → Prop.
Variable des0 : list DataElement.

Hypothesis Inv_indicator : ∀ st de code id nm short,
  de ∈ des0 → de_code de = Some code → de_id de = Some id →
  de_name de = Some nm → de_shortName de = Some short →
  Inv st →
  Inv (with_counts incr_indicators
       (set_concept (concept_url code)
          (indicator_concept code id nm short (de_description de)) st)).

Hypothesis Inv_disaggregate : ∀ st d id nm,
  concepts (dhis2_diff st) !! concept_url d = None →
  Inv st →
  Inv (with_counts incr_disaggregates
       (set_concept (concept_url d) (disaggregate_concept d id nm) st)).

Hypothesis Inv_mapping : ∀ st code d,
  indicator_of des0 code →
  is_Some (concepts (dhis2_diff st) !! concept_url code) →
  is_Some (concepts (dhis2_diff st) !! concept_url d) →
  Inv st →
  Inv (with_counts incr_mappings
       (set_mapping (mapping_key (concept_url code) (concept_url d))
          (disaggregate_mapping (concept_url code) (concept_url d)) st)).

Hypothesis Inv_indicator_ref : ∀ st code id repo collection_id,
  indicator_of des0 code →
  ocl_dataset_repos !! id = Some repo → repo_id repo = Some collection_id →
  is_Some (concepts (dhis2_diff st) !! concept_url code) →
  Inv st →
  Inv (with_counts incr_indicator_refs
       (set_concept_ref
          (get_concept_reference_json "PEPFAR" collection_id (concept_url code)).1
          (get_concept_reference_json "PEPFAR" collection_id (concept_url code)).2
          st)).

Hypothesis Inv_disaggregate_ref : ∀ st d id repo collection_id,
  ocl_dataset_repos !! id = Some repo → repo_id repo = Some collection_id →
  is_Some (concepts (dhis2_diff st) !! concept_url d) →
  concept_refs (dhis2_diff st)
    !! (get_concept_reference_json "PEPFAR" collection_id (concept_url d)).1 = None →
  Inv st →
  Inv (with_counts incr_disaggregate_refs
       (set_concept_ref
          (get_concept_reference_json "PEPFAR" collection_id (concept_url d)).1
          (get_concept_reference_json "PEPFAR" collection_id (concept_url d)).2
          st)).

Lemma urls_present_snoc urls d st :
  urls_present urls st →
  is_Some (concepts (dhis2_diff st) !! concept_url d) →
  urls_present (urls ++ [concept_url d]) st.
Proof.
  intros Hurls Hd. apply Forall_app. split; [done|].
  constructor; [|constructor]. by exists d.
Qed.

Lemma urls_present_mono urls st st' :
  (∀ k, is_Some (concepts (dhis2_diff st) !! k) →
        is_Some (concepts (dhis2_diff st') !! k)) →
  urls_present urls st → urls_present urls st'.
Proof.
  intros Hmono Hurls. eapply Forall_impl; [exact Hurls|].
  intros u (d & -> & Hd). exists d. eauto.
Qed.

Lemma coc_body_invariant code urls coc :
  indicator_of des0 code →
  hoare
    (λ st, Inv st ∧ is_Some (concepts (dhis2_diff st) !! concept_url code) ∧
           urls_present urls st)
    (coc_body (concept_url code) urls coc)
    (λ urls' st, Inv st ∧ is_Some (concepts (dhis2_diff st) !! concept_url code) ∧
                 urls_present urls' st)
    (λ _ st, Inv st).
Proof.
  intros Hcode st (HInv & Hi & Hurls).
  destruct (coc_body_cases (concept_url code) urls coc st)
    as [[e ->] | [(d & Hd & Hpresent & ->) | (d & id & nm & Hd & Hid & Hnm & Habsent & ->)]].
  - done.
  - split; [by apply Inv_mapping|]. split; [done|].
    by apply urls_present_snoc.
  - set (st1 := with_counts incr_disaggregates _).
    assert (Hmono : ∀ k, is_Some (concepts (dhis2_diff st) !! k) →
                         is_Some (concepts (dhis2_diff st1) !! k)).
    { intros k Hk. simpl. rewrite lookup_insert_is_Some'. by right. }
    assert (Hd1 : is_Some (concepts (dhis2_diff st1) !! concept_url d)).
    { simpl. rewrite lookup_insert_is_Some'. by left. }
    split; [|split].
    + apply Inv_mapping; [done | by apply Hmono | done |]. by apply Inv_disaggregate.
    + by apply Hmono.
    + apply (urls_present_snoc _ _ st1); [|done].
      by eapply urls_present_mono.
Qed.

Lemma disaggregate_ref_loop_invariant id repo collection_id keep todo :
  ocl_dataset_repos !! id = Some repo → repo_id repo = Some collection_id →
  hoare
    (λ st, Inv st ∧ urls_present todo st ∧ urls_present keep st)
    (for_each (disaggregate_ref_body collection_id) todo tt)
    (λ _ st, Inv st ∧ urls_present keep st) (λ _ st, Inv st).
Proof.
  intros Hrepo Hcol.
  induction todo as [|url todo IH]; intros st (HInv & Htodo & Hkeep).
  { done. }
  rewrite for_each_cons.
  apply Forall_cons in Htodo as [(d & -> & Hd) Htodo].
  destruct (disaggregate_ref_body_cases collection_id (concept_url d) st)
    as [[_ ->] | [Habsent ->]].
  - by apply IH.
  - apply IH. split; [by eapply Inv_disaggregate_ref|]. done.
Qed.

Lemma dse_body_invariant code urls dse :
  indicator_of des0 code →
  hoare
    (λ st, Inv st ∧ urls_present (concept_url code :: urls) st)
    (dse_body (concept_url code) urls tt dse)
    (λ _ st, Inv st ∧ urls_present (concept_url code :: urls) st)
    (λ _ st, Inv st).
Proof.
  intros Hcode st (HInv & Hurls). unfold DatimSyncMer.dse_body.
  assert (Hi : is_Some (concepts (dhis2_diff st) !! concept_url code)).
  { apply Forall_cons in Hurls as [(d & _ & Hd) _]. done. }
  rewrite bind_unfold. unfold getitem at 1.
  destruct (dataSet dse) as [ds|]; [|done]. unfold ret at 1.
  rewrite bind_unfold. unfold getitem at 1.
  destruct (ds_id ds) as [id|]; [|done]. unfold ret at 1.
  destruct (ocl_dataset_repos !! id) as [repo|] eqn:Hrepo; [|done].
  rewrite bind_unfold. unfold getitem at 1.
  destruct (repo_id repo) as [collection_id|] eqn:Hcol; [|done]. unfold ret at 1.
  pose proof (Inv_indicator_ref st code id repo collection_id Hcode Hrepo Hcol Hi HInv)
    as HInv1.
  destruct (get_concept_reference_json "PEPFAR" collection_id (concept_url code))
    as [k r]. simpl in HInv1.
  rewrite bind_unfold. unfold modify at 1.
  rewrite bind_unfold. unfold modify at 1.
  apply (disaggregate_ref_loop_invariant id repo collection_id
           (concept_url code :: urls) urls Hrepo Hcol
           (with_counts incr_indicator_refs (set_concept_ref k r st))).
  split; [done|]. split; [|done].
  apply Forall_cons in Hurls as [_ Hurls]. done.
Qed.

Lemma de_body_invariant de :
  de ∈ des0 →
  hoare Inv (de_body tt de) (λ _, Inv) (λ _, Inv).
Proof.
  intros Hin st HInv. unfold DatimSyncMer.de_body.
  rewrite bind_unfold. unfold getitem at 1.
  destruct (de_code de) as [code|] eqn:Hcode; [|done]. unfold ret at 1.
  rewrite bind_unfold. unfold getitem at 1.
  destruct (de_id de) as [id|] eqn:Hid; [|done]. unfold ret at 1.
  rewrite bind_unfold. unfold getitem at 1.
  destruct (de_name de) as [nm|] eqn:Hnm; [|done]. unfold ret at 1.
  rewrite bind_unfold. unfold getitem at 1.
  destruct (de_shortName de) as [short|] eqn:Hshort; [|done]. unfold ret at 1.
  rewrite bind_unfold. unfold modify at 1.
  rewrite bind_unfold. unfold modify at 1.
  pose proof (Inv_indicator st de code id nm short Hin Hcode Hid Hnm Hshort HInv)
    as HInv1.
  set (st1 := with_counts incr_indicators _) in *.
  assert (Hof : indicator_of des0 code) by (by exists de).
  assert (Hi1 : is_Some (concepts (dhis2_diff st1) !! concept_url code)).
  { simpl. rewrite lookup_insert_is_Some'. by left. }
  rewrite bind_unfold. unfold getitem at 1.
  destruct (categoryCombo de) as [cc|]; [|done]. unfold ret at 1.
  rewrite bind_unfold. unfold getitem at 1.
  destruct (categoryOptionCombos cc) as [cocs|]; [|done]. unfold ret at 1.
  rewrite bind_unfold.
  pose proof (hoare_for_each
    (λ urls st, Inv st ∧
       is_Some (concepts (dhis2_diff st) !! concept_url code) ∧
       urls_present urls st)
    (coc_body (concept_url code)) (λ _ st, Inv st) cocs
    (λ urls coc _, coc_body_invariant code urls coc Hof) [] st1
    (conj HInv1 (conj Hi1 (Forall_nil_2 _)))) as Hloop.
  destruct (for_each _ cocs [] st1) as [[e|urls] st2]; [done|].
  destruct Hloop as (HInv2 & Hi2 & Hurls2).
  rewrite bind_unfold. unfold getitem at 1.
  destruct (dataSetElements de) as [dses|]; [|done]. unfold ret at 1.
  pose proof (hoare_for_each
    (λ _ st, Inv st ∧ urls_present (concept_url code :: urls) st)
    (dse_body (concept_url code) urls) (λ _ st, Inv st) dses
    (λ b dse _, match b with tt => dse_body_invariant code urls dse Hof end) tt st2)
    as Hrefs.
  destruct (for_each _ dses tt st2) as [[e|[]] st3].
  - apply Hrefs. split; [done|]. constructor; [by exists code | done].
  - apply Hrefs. split; [done|]. constructor; [by exists code | done].
Qed.

Lemma de_loop_invariant des :
  (∀ de, de ∈ des → de ∈ des0) →
  hoare Inv (for_each de_body des tt) (λ _, Inv) (λ _, Inv).
Proof.
  intros Hsub. apply (hoare_for_each (λ _, Inv)).
  intros [] de Hin. by apply de_body_invariant, Hsub.
Qed.

End Invariant.

(** A property of states that every guarded write of the transformer
    keeps is kept by [dhis2diff_mer], whether it returns or raises; the
    data elements of the export are known to the property. *)
Lemma dhis2diff_mer_invariant (Inv : State → Prop) e snapshot :
  (∀ des, dataElements e = Some des →
     (∀ st de code id nm short,
        de ∈ des → de_code de = Some code → de_id de = Some id →
        de_name de = Some nm → de_shortName de = Some short → Inv st →
        Inv (with_counts incr_indicators
               (set_concept (concept_url code)
                  (indicator_concept code id nm short (de_description de)) st)))
     ∧ (∀ st code d,
          indicator_of des code →
          is_Some (concepts (dhis2_diff st) !! concept_url code) →
          is_Some (concepts (dhis2_diff st) !! concept_url d) → Inv st →
          Inv (with_counts incr_mappings
                 (set_mapping (mapping_key (concept_url code) (concept_url d))
                    (disaggregate_mapping (concept_url code) (concept_url d)) st)))
     ∧ (∀ st code id repo collection_id,
          indicator_of des code →
          ocl_dataset_repos !! id = Some repo → repo_id repo = Some collection_id →
          is_Some (concepts (dhis2_diff st) !! concept_url code) → Inv st →
          Inv (with_counts incr_indicator_refs
                 (set_concept_ref
                    (get_concept_reference_json "PEPFAR" collection_id
                       (concept_url code)).1
                    (get_concept_reference_json "PEPFAR" collection_id
                       (concept_url code)).2 st)))) →
  (∀ st d id nm,
     concepts (dhis2_diff st) !! concept_url d = None → Inv st →
     Inv (with_counts incr_disaggregates
            (set_concept (concept_url d) (disaggregate_concept d id nm) st))) →
  (∀ st d id repo collection_id,
     ocl_dataset_repos !! id = Some repo → repo_id repo = Some collection_id →
     is_Some (concepts (dhis2_diff st) !! concept_url d) →
     concept_refs (dhis2_diff st)
       !! (get_concept_reference_json "PEPFAR" collection_id (concept_url d)).1
     = None →
     Inv st →
     Inv (with_counts incr_disaggregate_refs
            (set_concept_ref
               (get_concept_reference_json "PEPFAR" collection_id (concept_url d)).1
               (get_concept_reference_json "PEPFAR" collection_id (concept_url d)).2
               st))) →
  Inv {| dhis2_diff := snapshot; counts := zero_counts |} →
  match transform e {| dhis2_diff := snapshot; counts := zero_counts |} with
  | (_, st) => Inv st
  end.
Proof.
  intros Hdes Hdis Hdref Hstart. unfold DatimSyncMer.transform.
  rewrite bind_unfold. unfold getitem.
  destruct (dataElements e) as [des|] eqn:He; [|done]. unfold ret at 1.
  destruct (Hdes des eq_refl) as (Hind & Hmap & Hiref).
  pose proof (de_loop_invariant Inv des Hind Hdis Hmap Hiref Hdref des
                (λ _ H, H) _ Hstart) as Hloop.
  by destruct (for_each _ des tt _) as [[err|[]] st].
Qed.

Lemma dhis2diff_mer_snd e snapshot :
  snd (dhis2diff_mer e snapshot)
  = dhis2_diff (snd (transform e {| dhis2_diff := snapshot; counts := zero_counts |})).
Proof.
  unfold DatimSyncMer.dhis2diff_mer.
  by destruct (transform e _) as [[err|[]] st].
Qed.

Lemma dhis2diff_mer_returned e snapshot c snapshot' :
  dhis2diff_mer e snapshot = (inr c, snapshot') →
  ∃ st, transform e {| dhis2_diff := snapshot; counts := zero_counts |} = (inr tt, st)
        ∧ c = counts st ∧ snapshot' = dhis2_diff st.
Proof.
  unfold DatimSyncMer.dhis2diff_mer.
  destruct (transform e _) as [[err|[]] st]; [done|].
  intros [= <- <-]. by exists st.
Qed.

(** X11. [dhis2diff_mer] never removes an entry: every key of the
    snapshot it starts from is still there afterwards, in each of the three
    partitions and whether it returns or raises; and a concept whose key is
    not the key of a data element of the export keeps its record. *)
Theorem X11_nothing_removed (e : Dhis2Export) (snapshot : Snapshot) :
  (∀ k, is_Some (concepts snapshot !! k) →
        is_Some (concepts (snd (dhis2diff_mer e snapshot)) !! k))
  ∧ (∀ k, is_Some (mappings snapshot !! k) →
          is_Some (mappings (snd (dhis2diff_mer e snapshot)) !! k))
  ∧ (∀ k, is_Some (concept_refs snapshot !! k) →
          is_Some (concept_refs (snd (dhis2diff_mer e snapshot)) !! k))
  ∧ (∀ k c, concepts snapshot !! k = Some c →
       (∀ des code, dataElements e = Some des → indicator_of des code →
                    k ≠ concept_url code) →
       concepts (snd (dhis2diff_mer e snapshot)) !! k = Some c).
Proof.
  rewrite dhis2diff_mer_snd.
  pose proof (dhis2diff_mer_invariant (λ st,
    (∀ k, is_Some (concepts snapshot !! k) →
          is_Some (concepts (dhis2_diff st) !! k))
    ∧ (∀ k, is_Some (mappings snapshot !! k) →
            is_Some (mappings (dhis2_diff st) !! k))
    ∧ (∀ k, is_Some (concept_refs snapshot !! k) →
            is_Some (concept_refs (dhis2_diff st) !! k))
    ∧ (∀ k c, concepts snapshot !! k = Some c →
         (∀ des code, dataElements e = Some des → indicator_of des code →
                      k ≠ concept_url code) →
         concepts (dhis2_diff st) !! k = Some c)) e snapshot) as Hinv.
  destruct (transform e _) as [r st]. apply Hinv; clear Hinv.
  - intros des Hdes. split; [|split].
    + intros st0 de code id nm short Hin Hcode _ _ _ (Hc & Hm & Hr & Hkeep).
      simpl. repeat split; try done.
      * intros k Hk. rewrite lookup_insert_is_Some'. right. by apply Hc.
      * intros k c Hk Hnot. rewrite lookup_insert_ne; [by apply Hkeep|].
        intros <-. eapply Hnot; [done | by exists de | done].
    + intros st0 code d _ _ _ (Hc & Hm & Hr & Hkeep).
      simpl. repeat split; try done.
      intros k Hk. rewrite lookup_insert_is_Some'. right. by apply Hm.
    + intros st0 code id repo col _ _ _ _ (Hc & Hm & Hr & Hkeep).
      simpl. repeat split; try done.
      intros k Hk. rewrite lookup_insert_is_Some'. right. by apply Hr.
  - intros st0 d id nm Habsent (Hc & Hm & Hr & Hkeep).
    simpl. repeat split; try done.
    + intros k Hk. rewrite lookup_insert_is_Some'. right. by apply Hc.
    + intros k c Hk Hnot. rewrite lookup_insert_ne; [by apply Hkeep|].
      intros <-. rewrite (Hkeep _ _ Hk Hnot) in Habsent. done.
  - intros st0 d id repo col _ _ _ _ (Hc & Hm & Hr & Hkeep).
    simpl. repeat split; try done.
    intros k Hk. rewrite lookup_insert_is_Some'. right. by apply Hr.
  - done.
Qed.

Lemma indicator_concept_ok code id nm short desc :
  concept_ok (concept_url code) (indicator_concept code id nm short desc).
Proof.
  unfold concept_ok. simpl. repeat split; try done.
  - by left.
  - by repeat constructor.
  - by eexists.
Qed.

Lemma disaggregate_concept_ok d id nm :
  concept_ok (concept_url d) (disaggregate_concept d id nm).
Proof.
  unfold concept_ok. simpl. repeat split; try done.
  - by right.
  - by repeat constructor.
  - by eexists.
Qed.

(** X12. Every concept record that [dhis2diff_mer] stores sits under the
    key made from its own id, belongs to PEPFAR's MER source, is not
    retired, is an Indicator of datatype Numeric or a Disaggregate of
    datatype None, and has English names of which exactly one, the fully
    specified one, is marked preferred; a snapshot whose concepts are so
    stays so, whether the method returns or raises. *)
Theorem X12_concepts_well_formed (e : Dhis2Export) (snapshot : Snapshot) :
  concepts_ok snapshot → concepts_ok (snd (dhis2diff_mer e snapshot)).
Proof.
  intros Hstart. rewrite dhis2diff_mer_snd.
  pose proof (dhis2diff_mer_invariant (λ st, concepts_ok (dhis2_diff st))
                e snapshot) as Hinv.
  destruct (transform e _) as [r st]. apply Hinv; clear Hinv; try done.
  - intros des Hdes. split; [|split]; try done.
    intros st0 de code id nm short _ _ _ _ _ Hok k c. simpl.
    rewrite lookup_insert. case_decide; [|apply Hok].
    intros [= <-]. subst. apply indicator_concept_ok.
  - intros st0 d id nm _ Hok k c. simpl.
    rewrite lookup_insert. case_decide; [|apply Hok].
    intros [= <-]. subst. apply disaggregate_concept_ok.
Qed.

(** X13. Every concept reference that [dhis2diff_mer] stores was built by
    [get_concept_reference_json] for owner PEPFAR, a collection that the
    table gives for some dataset, and the url of a concept of the same
    snapshot; a snapshot whose references are so stays so, whether the
    method returns or raises. *)
Theorem X13_references_well_founded (e : Dhis2Export) (snapshot : Snapshot) :
  refs_ok get_concept_reference_json ocl_dataset_repos snapshot →
  refs_ok get_concept_reference_json ocl_dataset_repos
    (snd (dhis2diff_mer e snapshot)).
Proof.
  intros Hstart. rewrite dhis2diff_mer_snd.
  pose proof (dhis2diff_mer_invariant
    (λ st, refs_ok get_concept_reference_json ocl_dataset_repos (dhis2_diff st))
    e snapshot) as Hinv.
  assert (Hgrow : ∀ st0 k0 (c0 : Concept),
    refs_ok get_concept_reference_json ocl_dataset_repos (dhis2_diff st0) →
    refs_ok get_concept_reference_json ocl_dataset_repos
      (dhis2_diff (set_concept k0 c0 st0))).
  { intros st0 k0 c0 Hok k r Hk.
    destruct (Hok k r Hk) as (id & repo & col & url & ? & ? & ? & ?).
    exists id, repo, col, url. repeat split; try done.
    simpl. rewrite lookup_insert_is_Some'. by right. }
  assert (Hadd : ∀ st0 id repo col url,
    ocl_dataset_repos !! id = Some repo → repo_id repo = Some col →
    is_Some (concepts (dhis2_diff st0) !! url) →
    refs_ok get_concept_reference_json ocl_dataset_repos (dhis2_diff st0) →
    refs_ok get_concept_reference_json ocl_dataset_repos
      (dhis2_diff (set_concept_ref
                     (get_concept_reference_json "PEPFAR" col url).1
                     (get_concept_reference_json "PEPFAR" col url).2 st0))).
  { intros st0 id repo col url Hrepo Hcol Hurl Hok k r. simpl.
    rewrite lookup_insert. case_decide; [|apply Hok].
    intros [= <-]. subst. exists id, repo, col, url.
    repeat split; try done. by destruct (get_concept_reference_json _ _ _). }
  destruct (transform e _) as [r st]. apply Hinv; clear Hinv; try done.
  - intros des Hdes. split; [|split]; try done.
    + intros st0 de code id nm short _ _ _ _ _ Hok. by apply (Hgrow st0).
    + intros st0 code id repo col _ Hrepo Hcol Hurl Hok. by eapply (Hadd st0).
  - intros st0 d id nm _ Hok. by apply (Hgrow st0).
  - intros st0 d id repo col Hrepo Hcol Hurl _ Hok. by eapply (Hadd st0).
Qed.

(** X14. The counters that [dhis2diff_mer] returns bound what it added:
    the concept partition grew by at least the number of disaggregates
    counted and at most that number plus the number of indicators; the
    mapping partition grew by at most the number of mappings counted; the
    reference partition grew by at least the number of disaggregate
    references counted and at most that number plus the number of indicator
    references. *)
Theorem X14_counters_bound_sizes (e : Dhis2Export) snapshot c snapshot' :
  dhis2diff_mer e snapshot = (inr c, snapshot') →
  size (concepts snapshot) + num_disaggregates c ≤ size (concepts snapshot')
  ∧ size (concepts snapshot')
    ≤ size (concepts snapshot) + num_indicators c + num_disaggregates c
  ∧ size (mappings snapshot) ≤ size (mappings snapshot')
  ∧ size (mappings snapshot') ≤ size (mappings snapshot) + num_mappings c
  ∧ size (concept_refs snapshot) + num_disaggregate_refs c
    ≤ size (concept_refs snapshot')
  ∧ size (concept_refs snapshot')
    ≤ size (concept_refs snapshot) + num_indicator_refs c + num_disaggregate_refs c.
Proof.
  intros (st & Hrun & -> & ->)%dhis2diff_mer_returned.
  pose proof (dhis2diff_mer_invariant
    (sizes_counted (size (concepts snapshot)) (size (mappings snapshot))
       (size (concept_refs snapshot))) e snapshot) as Hinv.
  rewrite Hrun in Hinv. apply Hinv; clear Hinv Hrun.
  - intros des Hdes. split; [|split].
    + intros st0 de code id nm short _ _ _ _ _ H.
      unfold sizes_counted in *. simpl. rewrite map_size_insert.
      destruct (concepts (dhis2_diff st0) !! concept_url code); simpl; lia.
    + intros st0 code d _ _ _ H.
      unfold sizes_counted in *. simpl. rewrite map_size_insert.
      destruct (mappings (dhis2_diff st0) !! _); simpl; lia.
    + intros st0 code id repo col _ _ _ _ H.
      unfold sizes_counted in *. simpl. rewrite map_size_insert.
      destruct (concept_refs (dhis2_diff st0) !! _); simpl; lia.
  - intros st0 d id nm Habsent H.
    unfold sizes_counted in *. simpl.
    rewrite map_size_insert_None by done. lia.
  - intros st0 d id repo col _ _ _ Habsent H.
    unfold sizes_counted in *. simpl.
    rewrite map_size_insert_None by done. lia.
  - unfold sizes_counted. simpl. lia.
Qed.

(** *** What the loops count and what they store *)

Lemma coc_loop_effects iurl cocs : ∀ urls st urls' st',
  for_each (coc_body iurl) cocs urls st = (inr urls', st') →
  num_indicators (counts st') = num_indicators (counts st)
  ∧ num_mappings (counts st') = num_mappings (counts st) + length cocs
  ∧ num_indicator_refs (counts st') = num_indicator_refs (counts st)
  ∧ concept_refs (dhis2_diff st') = concept_refs (dhis2_diff st)
  ∧ (∀ u, u ∈ urls → u ∈ urls')
  ∧ (∀ coc d, coc ∈ cocs → coc_code coc = Some d → concept_url d ∈ urls').
Proof.
  induction cocs as [|coc cocs IH]; intros urls st urls' st'.
  { rewrite for_each_nil. intros [= <- <-]. repeat split; try done; try lia.
    intros coc d Hin. by apply elem_of_nil in Hin. }
  rewrite for_each_cons.
  destruct (coc_body_cases iurl urls coc st)
    as [[e ->] | [(d & Hd & _ & ->) | (d & id & nm & Hd & _ & _ & _ & ->)]];
    [done|..]; intros Hrest;
    destruct (IH _ _ _ _ Hrest) as (Hi & Hm & Hr & Hrefs & Hsub & Hurls);
    simpl in Hi, Hm, Hr, Hrefs; (repeat split; [done | simpl; lia | done | done |..]).
  - intros u Hu. apply Hsub, elem_of_app. by left.
  - intros coc' d' [-> | Hin]%elem_of_cons Hd'; [|by eapply Hurls].
    assert (d' = d) as -> by congruence.
    apply Hsub, elem_of_app. right. by constructor.
  - intros u Hu. apply Hsub, elem_of_app. by left.
  - intros coc' d' [-> | Hin]%elem_of_cons Hd'; [|by eapply Hurls].
    assert (d' = d) as -> by congruence.
    apply Hsub, elem_of_app. right. by constructor.
Qed.

Lemma disaggregate_ref_loop_effects collection_id urls : ∀ st st',
  for_each (disaggregate_ref_body collection_id) urls tt st = (inr tt, st') →
  num_indicators (counts st') = num_indicators (counts st)
  ∧ num_mappings (counts st') = num_mappings (counts st)
  ∧ num_indicator_refs (counts st') = num_indicator_refs (counts st)
  ∧ (∀ k, is_Some (concept_refs (dhis2_diff st) !! k) →
          is_Some (concept_refs (dhis2_diff st') !! k))
  ∧ (∀ url, url ∈ urls →
       is_Some (concept_refs (dhis2_diff st')
                  !! (get_concept_reference_json "PEPFAR" collection_id url).1)).
Proof.
  induction urls as [|url urls IH]; intros st st'.
  { rewrite for_each_nil. intros [= <-]. repeat split; try done.
    intros url Hin. by apply elem_of_nil in Hin. }
  rewrite for_each_cons.
  destruct (disaggregate_ref_body_cases collection_id url st)
    as [[Hpresent ->] | [Habsent ->]]; intros Hrest;
    destruct (IH _ _ Hrest) as (Hi & Hm & Hr & Hmono & Hurls);
    simpl in Hi, Hm, Hr, Hmono; (repeat split; [done..| |]).
  - done.
  - intros url' [-> | Hin]%elem_of_cons; [by apply Hmono | by apply Hurls].
  - intros k Hk. apply Hmono. rewrite lookup_insert_is_Some'. by right.
  - intros url' [-> | Hin]%elem_of_cons; [|by apply Hurls].
    apply Hmono. rewrite lookup_insert_is_Some'. by left.
Qed.

Lemma dse_body_inv iurl urls dse st st' :
  dse_body iurl urls tt dse st = (inr tt, st') →
  (collection_of ocl_dataset_repos dse = None ∧
   known_link ocl_dataset_repos dse = false ∧ st' = st)
  ∨ (∃ collection_id,
       collection_of ocl_dataset_repos dse = Some collection_id ∧
       known_link ocl_dataset_repos dse = true ∧
       for_each (disaggregate_ref_body collection_id) urls tt
         (with_counts incr_indicator_refs
            (set_concept_ref
               (get_concept_reference_json "PEPFAR" collection_id iurl).1
               (get_concept_reference_json "PEPFAR" collection_id iurl).2 st))
       = (inr tt, st')).
Proof.
  unfold collection_of, known_link.
  destruct (dataSet dse) as [ds|] eqn:Hds; cycle 1.
  { unfold DatimSyncMer.dse_body. py_unfold. by rewrite Hds. }
  destruct (ds_id ds) as [id|] eqn:Hid; cycle 1.
  { unfold DatimSyncMer.dse_body. py_unfold. rewrite Hds; simpl. by rewrite Hid. }
  destruct (ocl_dataset_repos !! id) as [repo|] eqn:Hrepo; cycle 1.
  { unfold DatimSyncMer.dse_body. py_unfold. rewrite Hds; simpl.
    rewrite Hid; simpl. rewrite Hrepo. intros [= <-]. left.
    by repeat split. }
  destruct (repo_id repo) as [collection_id|] eqn:Hcol; cycle 1.
  { unfold DatimSyncMer.dse_body. py_unfold. rewrite Hds; simpl.
    rewrite Hid; simpl. rewrite Hrepo. by rewrite Hcol. }
  rewrite (dse_body_known iurl urls dse ds id repo collection_id) by done.
  intros Hloop. right. exists collection_id. by repeat split.
Qed.

Lemma dse_loop_effects iurl urls dses : ∀ st st',
  for_each (dse_body iurl urls) dses tt st = (inr tt, st') →
  num_indicators (counts st') = num_indicators (counts st)
  ∧ num_mappings (counts st') = num_mappings (counts st)
  ∧ num_indicator_refs (counts st')
    = num_indicator_refs (counts st)
      + length (filter (λ dse, known_link ocl_dataset_repos dse = true) dses)
  ∧ (∀ k, is_Some (concept_refs (dhis2_diff st) !! k) →
          is_Some (concept_refs (dhis2_diff st') !! k))
  ∧ (∀ dse collection_id url,
       dse ∈ dses →
       collection_of ocl_dataset_repos dse = Some collection_id →
       url = iurl ∨ url ∈ urls →
       is_Some (concept_refs (dhis2_diff st')
                  !! (get_concept_reference_json "PEPFAR" collection_id url).1)).
Proof.
  induction dses as [|dse dses IH]; intros st st'.
  { rewrite for_each_nil. intros [= <-].
    repeat split; try done; try (simpl; lia).
    intros dse col url Hin. by apply elem_of_nil in Hin. }
  rewrite for_each_cons.
  destruct (dse_body iurl urls tt dse st) as [[e|[]] st1] eqn:Hstep; [done|].
  intros Hrest. destruct (IH _ _ Hrest) as (Hi & Hm & Hr & Hmono & Hstored).
  apply dse_body_inv in Hstep
    as [(Hnone & Hknown & ->) | (col & Hcol & Hknown & Hloop)].
  - rewrite filter_cons_False by (by rewrite Hknown).
    repeat split; try done.
    intros dse' col url [-> | Hin]%elem_of_cons Hcol'; [congruence|].
    by eapply Hstored.
  - rewrite filter_cons_True by done.
    apply disaggregate_ref_loop_effects in Hloop
      as (Hi1 & Hm1 & Hr1 & Hmono1 & Hurls1).
    simpl in Hi1, Hm1, Hr1, Hmono1.
    repeat split; [lia | lia | simpl; lia | |].
    + intros k Hk. apply Hmono, Hmono1. rewrite lookup_insert_is_Some'. by right.
    + intros dse' col' url [-> | Hin]%elem_of_cons Hcol' Hurl;
        [|by eapply Hstored].
      assert (col' = col) as -> by congruence. apply Hmono.
      destruct Hurl as [-> | Hurl]; [|by apply Hurls1].
      apply Hmono1. rewrite lookup_insert_is_Some'. by left.
Qed.

Lemma links_of_fields de dses : dataSetElements de = Some dses → links_of de = dses.
Proof. unfold links_of. by intros ->. Qed.

Lemma de_loop_counts des : ∀ st st',
  for_each de_body des tt st = (inr tt, st') →
  num_indicators (counts st') = num_indicators (counts st) + length des
  ∧ num_mappings (counts st') = num_mappings (counts st) + length (all_cocs des)
  ∧ num_indicator_refs (counts st')
    = num_indicator_refs (counts st)
      + length (filter (λ dse, known_link ocl_dataset_repos dse = true)
                  (all_links des)).
Proof.
  induction des as [|de des IH]; intros st st'.
  { rewrite for_each_nil. intros [= <-]. simpl. lia. }
  rewrite for_each_cons.
  destruct (de_body tt de st) as [[e|[]] st1] eqn:Hstep; [done|].
  intros (Hi & Hm & Hr)%IH.
  apply de_body_inv in Hstep as (code & id & nm & short & cc & cocs & dses &
    urls & st_a & _ & _ & _ & _ & Hcc & Hcocs & Hdses & Hloop & Hrefs).
  apply coc_loop_effects in Hloop as (Hi1 & Hm1 & Hr1 & _).
  apply dse_loop_effects in Hrefs as (Hi2 & Hm2 & Hr2 & _).
  simpl in Hi1, Hm1, Hr1.
  unfold all_cocs, all_links. rewrite !fmap_cons. simpl.
  rewrite (cocs_of_fields de cc cocs), (links_of_fields de dses) by done.
  change (concat (cocs_of <$> des)) with (all_cocs des).
  change (concat (links_of <$> des)) with (all_links des).
  rewrite filter_app, !length_app. lia.
Qed.

(** X15. When [dhis2diff_mer] returns, three of its counters are exact:
    the number of indicators is the number of data elements, the number of
    mappings is the number of category-option-combos of all data elements,
    counted with repetition, and the number of indicator references is the
    number of dataset links whose dataset is in the table. *)
Theorem X15_counters_exact (e : Dhis2Export) des snapshot c snapshot' :
  dataElements e = Some des →
  dhis2diff_mer e snapshot = (inr c, snapshot') →
  num_indicators c = length des
  ∧ num_mappings c = length (all_cocs des)
  ∧ num_indicator_refs c
    = length (filter (λ dse, known_link ocl_dataset_repos dse = true)
                (all_links des)).
Proof.
  intros Hdes (des' & st' & Hdes' & Hloop & -> & _)%dhis2diff_mer_inv.
  assert (des' = des) as -> by congruence.
  by apply de_loop_counts in Hloop.
Qed.

(** X16. What a failure leaves behind: when the data elements before a
    defective one are transformed without error, the snapshot at the raise
    is the snapshot those elements give, if the defective element has no
    ['code']; and it holds the indicator concept of the defective element
    too, if that element has its names but no ['categoryCombo'], the
    concept being stored before the combo is read. *)
Theorem X16_failure_keeps_prefix pre de post snapshot c snapshot1 :
  dhis2diff_mer {| dataElements := Some pre |} snapshot = (inr c, snapshot1) →
  (de_code de = None →
     dhis2diff_mer {| dataElements := Some (pre ++ de :: post) |} snapshot
     = (inl (KeyError "code"), snapshot1))
  ∧ (∀ code id nm short,
       de_code de = Some code → de_id de = Some id → de_name de = Some nm →
       de_shortName de = Some short → categoryCombo de = None →
       dhis2diff_mer {| dataElements := Some (pre ++ de :: post) |} snapshot
       = (inl (KeyError "categoryCombo"),
          {| concepts :=
               <[concept_url code
                 := indicator_concept code id nm short (de_description de)]>
                 (concepts snapshot1);
             mappings := mappings snapshot1;
             concept_refs := concept_refs snapshot1 |})).
Proof.
  intros (des' & st1 & [= <-] & Hloop & _ & ->)%dhis2diff_mer_inv.
  split.
  - intros Hcode. unfold DatimSyncMer.dhis2diff_mer, DatimSyncMer.transform.
    simpl. rewrite bind_unfold. unfold ret at 1.
    rewrite for_each_app, Hloop, for_each_cons.
    unfold DatimSyncMer.de_body. rewrite bind_unfold. unfold getitem at 1.
    by rewrite Hcode.
  - intros code id nm short Hcode Hid Hnm Hshort Hcc.
    unfold DatimSyncMer.dhis2diff_mer, DatimSyncMer.transform.
    simpl. rewrite bind_unfold. unfold ret at 1.
    rewrite for_each_app, Hloop, for_each_cons.
    unfold DatimSyncMer.de_body. py_unfold.
    rewrite Hcode; simpl. rewrite Hid; simpl. rewrite Hnm; simpl.
    rewrite Hshort; simpl. by rewrite Hcc.
Qed.

Lemma de_loop_refs_kept k des : ∀ st st',
  for_each de_body des tt st = (inr tt, st') →
  is_Some (concept_refs (dhis2_diff st) !! k) →
  is_Some (concept_refs (dhis2_diff st') !! k).
Proof.
  induction des as [|de des IH]; intros st st'.
  { rewrite for_each_nil. by intros [= <-]. }
  rewrite for_each_cons.
  destruct (de_body tt de st) as [[e|[]] st1] eqn:Hstep; [done|].
  intros Hrest Hk. eapply IH; [done|].
  apply de_body_inv in Hstep as (code & id & nm & short & cc & cocs & dses &
    urls & st_a & _ & _ & _ & _ & _ & _ & _ & Hloop & Hrefs).
  apply coc_loop_effects in Hloop as (_ & _ & _ & Hsame & _).
  apply dse_loop_effects in Hrefs as (_ & _ & _ & Hmono & _).
  apply Hmono. by rewrite Hsame.
Qed.

Lemma de_loop_refs_stored de code dse collection_id url des : ∀ st st',
  de ∈ des → de_code de = Some code → dse ∈ links_of de →
  collection_of ocl_dataset_repos dse = Some collection_id →
  (url = concept_url code
   ∨ ∃ coc d, coc ∈ cocs_of de ∧ coc_code coc = Some d ∧ url = concept_url d) →
  for_each de_body des tt st = (inr tt, st') →
  is_Some (concept_refs (dhis2_diff st')
             !! (get_concept_reference_json "PEPFAR" collection_id url).1).
Proof.
  induction des as [|de' des IH]; intros st st' Hin Hcode Hdse Hcol Hurl.
  { by apply elem_of_nil in Hin. }
  rewrite for_each_cons.
  destruct (de_body tt de' st) as [[e|[]] st1] eqn:Hstep; [done|].
  intros Hrest. apply elem_of_cons in Hin as [<- | Hin]; [|by eapply IH].
  eapply de_loop_refs_kept; [done|].
  apply de_body_inv in Hstep as (code' & id & nm & short & cc & cocs & dses &
    urls & st_a & Hcode' & _ & _ & _ & Hcc & Hcocs & Hdses & Hloop & Hrefs).
  assert (code' = code) as -> by congruence.
  rewrite (links_of_fields de dses) in Hdse by done.
  apply coc_loop_effects in Hloop as (_ & _ & _ & _ & _ & Hurls).
  apply dse_loop_effects in Hrefs as (_ & _ & _ & _ & Hstored).
  apply (Hstored dse collection_id url Hdse Hcol).
  destruct Hurl as [-> | (coc & d & Hcoc & Hd & ->)]; [by left|].
  right. rewrite (cocs_of_fields de cc cocs) in Hcoc by done.
  by eapply Hurls.
Qed.

(** X17. When [dhis2diff_mer] returns, every dataset link of a data
    element whose dataset the table maps to a collection has given the
    reference partition the reference key of the indicator in that
    collection and the reference key of each of the indicator's
    disaggregates in that collection. *)
Theorem X17_references_stored (e : Dhis2Export) des de code dse collection_id
    snapshot c snapshot' :
  dataElements e = Some des →
  dhis2diff_mer e snapshot = (inr c, snapshot') →
  de ∈ des → de_code de = Some code → dse ∈ links_of de →
  collection_of ocl_dataset_repos dse = Some collection_id →
  is_Some (concept_refs snapshot'
             !! (get_concept_reference_json "PEPFAR" collection_id
                   (concept_url code)).1)
  ∧ (∀ coc d, coc ∈ cocs_of de → coc_code coc = Some d →
       is_Some (concept_refs snapshot'
                  !! (get_concept_reference_json "PEPFAR" collection_id
                        (concept_url d)).1)).
Proof.
  intros Hdes (des' & st' & Hdes' & Hloop & _ & ->)%dhis2diff_mer_inv
    Hin Hcode Hdse Hcol.
  assert (des' = des) as -> by congruence.
  split.
  - eapply (de_loop_refs_stored de code dse); eauto.
  - intros coc d Hcoc Hd.
    eapply (de_loop_refs_stored de code dse); eauto 10.
Qed.

(** X18. For indicators the last occurrence wins: when [dhis2diff_mer]
    returns, the concept under the key of a data element's code is the
    Indicator record of the last data element of the export with that code,
    whatever the snapshot held there and whatever option combo has the same
    code. *)
Theorem X18_last_indicator_wins (e : Dhis2Export) pre de post code id nm short
    snapshot c snapshot' :
  dataElements e = Some (pre ++ de :: post) →
  de_code de = Some code → de_id de = Some id → de_name de = Some nm →
  de_shortName de = Some short →
  (∀ de', de' ∈ post → de_code de' ≠ Some code) →
  dhis2diff_mer e snapshot = (inr c, snapshot') →
  concepts snapshot' !! concept_url code
  = Some (indicator_concept code id nm short (de_description de)).
Proof.
  intros Hdes Hcode Hid Hnm Hshort Hpost
    (des' & st' & Hdes' & Hloop & _ & ->)%dhis2diff_mer_inv.
  assert (des' = pre ++ de :: post) as -> by congruence.
  rewrite for_each_app in Hloop.
  destruct (for_each de_body pre tt _) as [[err|[]] st1]; [done|].
  rewrite for_each_cons in Hloop.
  destruct (de_body tt de st1) as [[err|[]] st2] eqn:Hstep; [done|].
  apply de_body_inv in Hstep as (code' & id' & nm' & short' & cc & cocs & dses &
    urls & st_a & Hcode' & Hid' & Hnm' & Hshort' & _ & _ & _ & Hcocs & Hrefs).
  assert (code' = code) as -> by congruence.
  assert (id' = id) as -> by congruence.
  assert (nm' = nm) as -> by congruence.
  assert (short' = short) as -> by congruence.
  apply (coc_loop_concept code) in Hcocs. simpl in Hcocs.
  rewrite lookup_insert_eq in Hcocs. simpl in Hcocs.
  apply dse_loop_keeps in Hrefs as [Hsame _].
  apply (de_loop_concept code post _ _ Hpost) in Hloop.
  rewrite Hsame, Hcocs in Hloop. done.
Qed.

(** X19. When [dhis2diff_mer] returns from the empty snapshot, every data
    element and every one of its option combos have their mapping in the
    mapping partition: a 'Has Option' record under the key of the pair,
    which is the mapping from the indicator to the disaggregate when no
    code of a data element contains a slash. *)
Theorem X19_mapping_for_every_pair (e : Dhis2Export) des de code coc d c snapshot' :
  dataElements e = Some des →
  dhis2diff_mer e empty_snapshot = (inr c, snapshot') →
  de ∈ des → de_code de = Some code →
  coc ∈ cocs_of de → coc_code coc = Some d →
  ∃ m, mappings snapshot' !! mapping_key (concept_url code) (concept_url d) = Some m
       ∧ map_type m = "Has Option"
       ∧ ((∀ de' code', de' ∈ des → de_code de' = Some code' → slash_free code') →
          m = disaggregate_mapping (concept_url code) (concept_url d)).
Proof.
  intros Hdes (des' & st' & Hdes' & Hloop & _ & ->)%dhis2diff_mer_inv
    Hin Hcode Hcoc Hd.
  assert (des' = des) as -> by congruence.
  destruct (de_loop_mapping_stored de code coc d des _ st' Hin Hcode Hcoc Hd Hloop)
    as [m Hm].
  exists m. split; [done|].
  assert (mappings_from des (mappings (dhis2_diff st'))) as Hfrom.
  { eapply (de_loop_mappings_from des des); [done|done|].
    intros k v. simpl. by rewrite lookup_empty. }
  destruct (Hfrom _ _ Hm) as (code' & d' & (de' & Hde' & Hcode') & Hk & ->).
  split; [done|]. intros Hfree.
  apply mapping_key_inj in Hk as [-> ->];
    [done | by apply (Hfree de) | by apply (Hfree de')].
Qed.

(** X20. An export in which every data element has its code, id, names,
    category combo with option combos and dataset links, every option
    combo its code, id and name, and every link its dataset with an id, is
    transformed without error from any snapshot, provided every entry of
    the table has an id. *)
Theorem X20_well_formed_export_returns (e : Dhis2Export) (snapshot : Snapshot) :
  wf_repos ocl_dataset_repos → wf_export e →
  ∃ c snapshot', dhis2diff_mer e snapshot = (inr c, snapshot').
Proof. intros Hrepos He. by apply dhis2diff_mer_returns. Qed.

End Facts.

(** *** The properties on the sample exports *)

Abbreviation sample_run :=
  (DatimSyncMer.dhis2diff_mer sample_concept_reference_json sample_repos).

Lemma run_returned {S A} (r : (Exn + A) * S) (a : A) :
  fst r = inr a → r = (inr a, snd r).
Proof. destruct r as [x s]. simpl. by intros ->. Qed.

Example single_export_counts :
  fst (sample_run single_export empty_snapshot)
  = inr {| num_indicators := 1; num_disaggregates := 1; num_mappings := 1;
           num_indicator_refs := 1; num_disaggregate_refs := 1 |}.
Proof. vm_compute. reflexivity. Qed.

Example shared_export_counts :
  fst (sample_run shared_export empty_snapshot)
  = inr {| num_indicators := 2; num_disaggregates := 1; num_mappings := 2;
           num_indicator_refs := 2; num_disaggregate_refs := 1 |}.
Proof. vm_compute. reflexivity. Qed.

Lemma C1_shared_disaggregate_witness :
  (∃ c0 id nm,
     first_with_code "Age_15+" (all_cocs [tx_new; tx_curr]) c0 ∧
     coc_id c0 = Some id ∧ coc_name c0 = Some nm ∧
     concepts (snd (sample_run shared_export empty_snapshot))
       !! concept_url "Age_15+"
     = Some (disaggregate_concept "Age_15+" id nm) ∧
     concept_class (disaggregate_concept "Age_15+" id nm) = "Disaggregate")
  ∧ mapping_key (concept_url "TX_NEW") (concept_url "Age_15+")
    ≠ mapping_key (concept_url "TX_CURR") (concept_url "Age_15+")
  ∧ (∀ i, i = "TX_NEW" ∨ i = "TX_CURR" →
       ∃ m, mappings (snd (sample_run shared_export empty_snapshot))
              !! mapping_key (concept_url i) (concept_url "Age_15+") = Some m ∧
         map_type m = "Has Option" ∧
         mapping_key (from_concept_url m) (to_concept_url m)
         = mapping_key (concept_url i) (concept_url "Age_15+") ∧
         ((∀ de code, de ∈ [tx_new; tx_curr] → de_code de = Some code →
             slash_free code) →
          m = disaggregate_mapping (concept_url i) (concept_url "Age_15+"))).
Proof.
  apply (C1_shared_disaggregate sample_concept_reference_json sample_repos
           shared_export [tx_new; tx_curr] tx_new tx_curr "TX_NEW" "TX_CURR"
           (sample_coc "c1" "Age_15+" "15+")
           (sample_coc "c1bis" "Age_15+" "15 and over") "Age_15+"
           {| num_indicators := 2; num_disaggregates := 1; num_mappings := 2;
              num_indicator_refs := 2; num_disaggregate_refs := 1 |}).
  - reflexivity.
  - apply run_returned. vm_compute. reflexivity.
  - repeat constructor.
  - repeat constructor.
  - reflexivity.
  - reflexivity.
  - discriminate.
  - repeat constructor.
  - repeat constructor.
  - reflexivity.
  - reflexivity.
  - intros de Hin.
    apply elem_of_cons in Hin as [-> | Hin]; [discriminate|].
    apply elem_of_cons in Hin as [-> | Hin]; [discriminate|].
    by apply elem_of_nil in Hin.
Defined.

(** The first disaggregate record under [X] is replaced by the indicator
    [X] that comes later: the key of [X] ends up holding an Indicator, and
    no Disaggregate record at all. *)
Lemma C1_counterexample :
  fst (sample_run overwritten_export empty_snapshot)
  = inr {| num_indicators := 2; num_disaggregates := 1; num_mappings := 2;
           num_indicator_refs := 2; num_disaggregate_refs := 1 |}
  ∧ concepts (snd (sample_run overwritten_export empty_snapshot)) !! concept_url "X"
    = Some (indicator_concept "X" "u3" "Indicator X" "X" None)
  ∧ concepts (snd (sample_run overwritten_export empty_snapshot)) !! concept_url "X"
    ≠ Some (disaggregate_concept "X" "c3" "Option X").
Proof.
  split; [vm_compute; reflexivity|].
  assert (H : concepts (snd (sample_run overwritten_export empty_snapshot))
                !! concept_url "X"
              = Some (indicator_concept "X" "u3" "Indicator X" "X" None)).
  { vm_compute. reflexivity. }
  split; [exact H|]. rewrite H. discriminate.
Qed.

Lemma C2_missing_field_raises_witness :
  ∃ key snapshot',
    sample_run {| dataElements := Some [tx_new; no_code_de] |} empty_snapshot
    = (inl (KeyError key), snapshot')
    ∧ key ∈ [ "code"; "id"; "name"; "shortName"; "categoryCombo";
              "categoryOptionCombos"; "dataSetElements"; "dataSet" ].
Proof.
  apply (C2_missing_field_raises sample_concept_reference_json sample_repos
           _ [tx_new; no_code_de] no_code_de).
  - reflexivity.
  - repeat constructor.
  - left. reflexivity.
Defined.

(** On an export whose second data element has no ['code'], what is raised
    is the built-in [KeyError] for the key ['code'], not an exception of a
    class [MalformedExportError]; and the snapshot at the raise holds the
    two concepts, the mapping and the two references of the first data
    element. *)
Lemma C2_counterexample :
  fst (sample_run {| dataElements := Some [tx_new; no_code_de] |} empty_snapshot)
  = inl (KeyError "code")
  ∧ exn_class (KeyError "code") ≠ "MalformedExportError"
  ∧ size (concepts (snd (sample_run {| dataElements := Some [tx_new; no_code_de] |}
                           empty_snapshot))) = 2
  ∧ size (mappings (snd (sample_run {| dataElements := Some [tx_new; no_code_de] |}
                           empty_snapshot))) = 1
  ∧ size (concept_refs (snd (sample_run {| dataElements := Some [tx_new; no_code_de] |}
                               empty_snapshot))) = 2.
Proof.
  repeat split; try (vm_compute; reflexivity). discriminate.
Qed.

Lemma C3_mappings_reference_present_concepts_witness :
  let s := snd (sample_run single_export empty_snapshot) in
  let m := disaggregate_mapping (concept_url "TX_NEW") (concept_url "Age_15+") in
  is_Some (concepts s !! from_concept_url m)
  ∧ is_Some (concepts s !! to_concept_url m).
Proof.
  apply (C3_mappings_reference_present_concepts sample_concept_reference_json
           sample_repos single_export
           (mapping_key (concept_url "TX_NEW") (concept_url "Age_15+"))).
  vm_compute. reflexivity.
Defined.

Lemma C4_transform_idempotent_witness :
  ∃ c2,
    sample_run shared_export (snd (sample_run shared_export empty_snapshot))
    = (inr c2, snd (sample_run shared_export empty_snapshot)).
Proof.
  apply (C4_transform_idempotent sample_concept_reference_json sample_repos
           shared_export empty_snapshot
           {| num_indicators := 2; num_disaggregates := 1; num_mappings := 2;
              num_indicator_refs := 2; num_disaggregate_refs := 1 |}).
  apply run_returned. vm_compute. reflexivity.
Defined.

Lemma C6_single_element_export_witness :
  sample_run single_export empty_snapshot
  = (inr {| num_indicators := 1; num_disaggregates := 1; num_mappings := 1;
            num_indicator_refs := 1; num_disaggregate_refs := 1 |},
     {| concepts :=
          <[concept_url "Age_15+" := disaggregate_concept "Age_15+" "c1" "15+"]>
            {[ concept_url "TX_NEW"
               := indicator_concept "TX_NEW" "u1" "New on ART" "TX_NEW" None ]};
        mappings :=
          {[ mapping_key (concept_url "TX_NEW") (concept_url "Age_15+")
             := disaggregate_mapping (concept_url "TX_NEW") (concept_url "Age_15+") ]};
        concept_refs :=
          <[(sample_concept_reference_json "PEPFAR" "COL1" (concept_url "Age_15+")).1
            := (sample_concept_reference_json "PEPFAR" "COL1" (concept_url "Age_15+")).2]>
            {[ (sample_concept_reference_json "PEPFAR" "COL1" (concept_url "TX_NEW")).1
               := (sample_concept_reference_json "PEPFAR" "COL1" (concept_url "TX_NEW")).2 ]}
     |}).
Proof.
  apply (C6_single_element_export sample_concept_reference_json sample_repos
           "u1" "TX_NEW" "New on ART" "TX_NEW" None "c1" "Age_15+" "15+" "dsA"
           {| repo_id := Some "COL1" |} "COL1").
  - discriminate.
  - reflexivity.
  - reflexivity.
  - vm_compute. discriminate.
Defined.

(** When the option combo has the code of its data element, the snapshot
    holds one concept, an Indicator, no Disaggregate, and one reference. *)
Lemma C6_counterexample :
  fst (sample_run same_code_export empty_snapshot)
  = inr {| num_indicators := 1; num_disaggregates := 0; num_mappings := 1;
           num_indicator_refs := 1; num_disaggregate_refs := 0 |}
  ∧ size (concepts (snd (sample_run same_code_export empty_snapshot))) = 1
  ∧ size (filter (λ kc, concept_class kc.2 = "Disaggregate")
            (concepts (snd (sample_run same_code_export empty_snapshot)))) = 0
  ∧ size (concept_refs (snd (sample_run same_code_export empty_snapshot))) = 1.
Proof. repeat split; vm_compute; reflexivity. Qed.

(** With the sample reference keys, the dataset [dsA] in the table and the
    dataset [dsX] not in it: a link to [dsX] is skipped. *)
Lemma C7_unknown_dataset_skipped_witness :
  let dse := sample_link "dsX" in
  let st := {| dhis2_diff := empty_snapshot; counts := zero_counts |} in
  DatimSyncMer.dse_body sample_concept_reference_json sample_repos
    (concept_url "TX_NEW") [concept_url "Age_15+"] tt dse st = (inr tt, st)
  ∧ for_each (DatimSyncMer.dse_body sample_concept_reference_json sample_repos
                (concept_url "TX_NEW") [concept_url "Age_15+"]) [dse] tt st
    = for_each (DatimSyncMer.dse_body sample_concept_reference_json sample_repos
                (concept_url "TX_NEW") [concept_url "Age_15+"]) [] tt st.
Proof.
  intros dse st.
  apply (C7_unknown_dataset_skipped sample_concept_reference_json sample_repos
           _ _ dse {| ds_id := Some "dsX" |} "dsX" [] st);
    reflexivity.
Defined.

(** An export with a link to the unknown dataset [dsX] gives the counters
    of the same export without the link, and no reference: none of the
    five counters counts the skipped link. *)
Lemma C7_counterexample :
  let with_link :=
    {| dataElements :=
         Some [sample_de "u1" "TX_NEW" "New on ART" "TX_NEW"
                 [sample_coc "c1" "Age_15+" "15+"] [sample_link "dsX"]] |} in
  let without_link :=
    {| dataElements :=
         Some [sample_de "u1" "TX_NEW" "New on ART" "TX_NEW"
                 [sample_coc "c1" "Age_15+" "15+"] []] |} in
  fst (sample_run with_link empty_snapshot)
  = inr {| num_indicators := 1; num_disaggregates := 1; num_mappings := 1;
           num_indicator_refs := 0; num_disaggregate_refs := 0 |}
  ∧ fst (sample_run with_link empty_snapshot)
    = fst (sample_run without_link empty_snapshot)
  ∧ size (concept_refs (snd (sample_run with_link empty_snapshot))) = 0.
Proof. repeat split; vm_compute; reflexivity. Qed.

(** *** The settings of the script *)

Section ScriptFacts.

Variables local_dhis2uid local_dhis2pwd local_oclapitoken : string.

Abbreviation script_settings :=
  (DatimSyncMer.script_settings local_dhis2uid local_dhis2pwd local_oclapitoken).

(** X21. Server settings: when the first command-line argument is ['true']
    or ['True'], the settings are taken from the environment and are never
    those of a test run (no test mode, no import limit); the script gets
    them exactly when all six variables are set, and otherwise raises the
    [KeyError] of the first variable, in reading order, that is not. *)
Theorem X21_server_settings (argv : list string) (environ : gmap string string) a :
  argv !! 1 = Some a → a = "true" ∨ a = "True" →
  ((∃ s, script_settings argv environ = inr s)
   ↔ Forall (λ k, is_Some (environ !! k)) server_variables)
  ∧ (∀ s, script_settings argv environ = inr s →
       environ !! "DHIS2_ENV" = Some (dhis2env s)
       ∧ environ !! "DHIS2_USER" = Some (dhis2uid s)
       ∧ environ !! "DHIS2_PASS" = Some (dhis2pwd s)
       ∧ environ !! "OCL_ENV" = Some (oclenv s)
       ∧ environ !! "OCL_API_TOKEN" = Some (oclapitoken s)
       ∧ (∃ v, environ !! "COMPARE_PREVIOUS_EXPORT" = Some v ∧
               (compare2previousexport s = true ↔ v = "true" ∨ v = "True"))
       ∧ import_test_mode s = false ∧ import_limit s = 0)
  ∧ (∀ e, script_settings argv environ = inl e →
       ∃ i k, server_variables !! i = Some k ∧ e = KeyError k ∧
              environ !! k = None ∧
              Forall (λ k', is_Some (environ !! k')) (take i server_variables)).
Proof.
  intros Ha Htrue. unfold DatimSyncMer.script_settings.
  assert (1 < length argv) as Hlen by (by eapply lookup_lt_Some).
  rewrite bool_decide_eq_true_2 by done. rewrite Ha. simpl.
  assert (in_true_True a = true) as ->.
  { apply bool_decide_eq_true. destruct Htrue as [-> | ->]; set_solver. }
  simpl. py_unfold. unfold server_variables.
  destruct (environ !! "DHIS2_ENV") as [v1|] eqn:H1; simpl; cycle 1.
  { split; [|split]; [|done|].
    - split; [by intros [? ?]|]. intros Hall.
      apply (Forall_lookup_1 _ _ 0 "DHIS2_ENV") in Hall; [|done].
      destruct Hall as [? Hall]. congruence.
    - intros e [= <-]. exists 0, "DHIS2_ENV". by repeat split. }
  destruct (environ !! "DHIS2_USER") as [v2|] eqn:H2; simpl; cycle 1.
  { split; [|split]; [|done|].
    - split; [by intros [? ?]|]. intros Hall.
      apply (Forall_lookup_1 _ _ 1 "DHIS2_USER") in Hall; [|done].
      destruct Hall as [? Hall]. congruence.
    - intros e [= <-]. exists 1, "DHIS2_USER". repeat split; try done.
      simpl. repeat constructor; by eauto. }
  destruct (environ !! "DHIS2_PASS") as [v3|] eqn:H3; simpl; cycle 1.
  { split; [|split]; [|done|].
    - split; [by intros [? ?]|]. intros Hall.
      apply (Forall_lookup_1 _ _ 2 "DHIS2_PASS") in Hall; [|done].
      destruct Hall as [? Hall]. congruence.
    - intros e [= <-]. exists 2, "DHIS2_PASS". repeat split; try done.
      simpl. repeat constructor; by eauto. }
  destruct (environ !! "OCL_ENV") as [v4|] eqn:H4; simpl; cycle 1.
  { split; [|split]; [|done|].
    - split; [by intros [? ?]|]. intros Hall.
      apply (Forall_lookup_1 _ _ 3 "OCL_ENV") in Hall; [|done].
      destruct Hall as [? Hall]. congruence.
    - intros e [= <-]. exists 3, "OCL_ENV". repeat split; try done.
      simpl. repeat constructor; by eauto. }
  destruct (environ !! "OCL_API_TOKEN") as [v5|] eqn:H5; simpl; cycle 1.
  { split; [|split]; [|done|].
    - split; [by intros [? ?]|]. intros Hall.
      apply (Forall_lookup_1 _ _ 4 "OCL_API_TOKEN") in Hall; [|done].
      destruct Hall as [? Hall]. congruence.
    - intros e [= <-]. exists 4, "OCL_API_TOKEN". repeat split; try done.
      simpl. repeat constructor; by eauto. }
  destruct (environ !! "COMPARE_PREVIOUS_EXPORT") as [v6|] eqn:H6; simpl; cycle 1.
  { split; [|split]; [|done|].
    - split; [by intros [? ?]|]. intros Hall.
      apply (Forall_lookup_1 _ _ 5 "COMPARE_PREVIOUS_EXPORT") in Hall; [|done].
      destruct Hall as [? Hall]. congruence.
    - intros e [= <-]. exists 5, "COMPARE_PREVIOUS_EXPORT". repeat split; try done.
      simpl. repeat constructor; by eauto. }
  split; [|split]; [| |done].
  - split; [|by eauto]. intros _. repeat constructor; by eauto.
  - intros s [= <-]. simpl. repeat split; try done.
    exists v6. split; [done|]. unfold in_true_True.
    rewrite bool_decide_eq_true. rewrite !elem_of_cons, elem_of_nil. tauto.
Qed.

(** X22. Development settings: without a first command-line argument, or
    with one that is not exactly ['true'] or ['True'], the environment is
    not read: the script never raises, the settings are the same whatever
    the environment holds, and they are those of a test run limited to one
    import, which does not compare with the previous export. *)
Theorem X22_development_settings (argv : list string)
    (environ environ' : gmap string string) :
  (∀ a, argv !! 1 = Some a → a ≠ "true" ∧ a ≠ "True") →
  script_settings argv environ = script_settings argv environ'
  ∧ ∃ s, script_settings argv environ = inr s ∧
         import_test_mode s = true ∧ import_limit s = 1 ∧
         compare2previousexport s = false.
Proof.
  intros Hargv. unfold DatimSyncMer.script_settings.
  assert (bool_decide (1 < length argv)
          && default false (in_true_True <$> argv !! 1) = false) as ->.
  { destruct (argv !! 1) as [a|] eqn:Ha; simpl.
    - destruct (Hargv a eq_refl) as [H1 H2].
      assert (in_true_True a = false) as ->; [|by rewrite andb_false_r].
      apply bool_decide_eq_false. rewrite !elem_of_cons, elem_of_nil. tauto.
    - by rewrite andb_false_r. }
  split; [done|]. by eexists.
Qed.

End ScriptFacts.

(** *** Further properties on the sample exports *)

Lemma empty_snapshot_concepts_ok : concepts_ok empty_snapshot.
Proof. intros k c. simpl. by rewrite lookup_empty. Qed.

Lemma X12_concepts_well_formed_witness :
  concepts_ok (snd (sample_run shared_export empty_snapshot)).
Proof.
  apply (X12_concepts_well_formed sample_concept_reference_json sample_repos
           shared_export empty_snapshot).
  intros k c. simpl. rewrite lookup_empty. discriminate.
Defined.

Lemma X13_references_well_founded_witness :
  refs_ok sample_concept_reference_json sample_repos
    (snd (sample_run shared_export empty_snapshot)).
Proof.
  apply (X13_references_well_founded sample_concept_reference_json sample_repos
           shared_export empty_snapshot).
  intros k r. simpl. rewrite lookup_empty. discriminate.
Defined.

Lemma X14_counters_bound_sizes_witness :
  let s' := snd (sample_run shared_export empty_snapshot) in
  0 + 1 ≤ size (concepts s')
  ∧ size (concepts s') ≤ 0 + 2 + 1
  ∧ 0 ≤ size (mappings s')
  ∧ size (mappings s') ≤ 0 + 2
  ∧ 0 + 1 ≤ size (concept_refs s')
  ∧ size (concept_refs s') ≤ 0 + 2 + 1.
Proof.
  apply (X14_counters_bound_sizes sample_concept_reference_json sample_repos
           shared_export empty_snapshot
           {| num_indicators := 2; num_disaggregates := 1; num_mappings := 2;
              num_indicator_refs := 2; num_disaggregate_refs := 1 |}).
  apply run_returned. vm_compute. reflexivity.
Defined.

Lemma X15_counters_exact_witness :
  2 = length [tx_new; tx_curr]
  ∧ 2 = length (all_cocs [tx_new; tx_curr])
  ∧ 2 = length (filter (λ dse, known_link sample_repos dse = true)
                  (all_links [tx_new; tx_curr])).
Proof.
  apply (X15_counters_exact sample_concept_reference_json sample_repos
           shared_export [tx_new; tx_curr] empty_snapshot
           {| num_indicators := 2; num_disaggregates := 1; num_mappings := 2;
              num_indicator_refs := 2; num_disaggregate_refs := 1 |}
           (snd (sample_run shared_export empty_snapshot))).
  - reflexivity.
  - apply run_returned. vm_compute. reflexivity.
Defined.

Lemma X16_failure_keeps_prefix_witness :
  sample_run {| dataElements := Some ([tx_new] ++ no_code_de :: [tx_curr]) |}
    empty_snapshot
  = (inl (KeyError "code"), snd (sample_run single_export empty_snapshot)).
Proof.
  destruct (X16_failure_keeps_prefix sample_concept_reference_json sample_repos
              [tx_new] no_code_de [tx_curr] empty_snapshot
              {| num_indicators := 1; num_disaggregates := 1; num_mappings := 1;
                 num_indicator_refs := 1; num_disaggregate_refs := 1 |}
              (snd (sample_run single_export empty_snapshot))) as [H _].
  - apply run_returned. vm_compute. reflexivity.
  - apply H. reflexivity.
Defined.

Lemma X17_references_stored_witness :
  let s' := snd (sample_run shared_export empty_snapshot) in
  is_Some (concept_refs s'
             !! (sample_concept_reference_json "PEPFAR" "COL1"
                   (concept_url "TX_NEW")).1)
  ∧ (∀ coc d, coc ∈ cocs_of tx_new → coc_code coc = Some d →
       is_Some (concept_refs s'
                  !! (sample_concept_reference_json "PEPFAR" "COL1"
                        (concept_url d)).1)).
Proof.
  apply (X17_references_stored sample_concept_reference_json sample_repos
           shared_export [tx_new; tx_curr] tx_new "TX_NEW" (sample_link "dsA")
           "COL1" empty_snapshot
           {| num_indicators := 2; num_disaggregates := 1; num_mappings := 2;
              num_indicator_refs := 2; num_disaggregate_refs := 1 |}).
  - reflexivity.
  - apply run_returned. vm_compute. reflexivity.
  - repeat constructor.
  - reflexivity.
  - repeat constructor.
  - reflexivity.
Defined.

Lemma X18_last_indicator_wins_witness :
  concepts (snd (sample_run shared_export empty_snapshot)) !! concept_url "TX_CURR"
  = Some (indicator_concept "TX_CURR" "u2" "Currently on ART" "TX_CURR" None).
Proof.
  apply (X18_last_indicator_wins sample_concept_reference_json sample_repos
           shared_export [tx_new] tx_curr [] "TX_CURR" "u2" "Currently on ART"
           "TX_CURR" empty_snapshot
           {| num_indicators := 2; num_disaggregates := 1; num_mappings := 2;
              num_indicator_refs := 2; num_disaggregate_refs := 1 |}).
  - reflexivity.
  - reflexivity.
  - reflexivity.
  - reflexivity.
  - reflexivity.
  - intros de' Hin. by apply elem_of_nil in Hin.
  - apply run_returned. vm_compute. reflexivity.
Defined.

Lemma X19_mapping_for_every_pair_witness :
  ∃ m, mappings (snd (sample_run shared_export empty_snapshot))
         !! mapping_key (concept_url "TX_CURR") (concept_url "Age_15+") = Some m
       ∧ map_type m = "Has Option"
       ∧ ((∀ de' code', de' ∈ [tx_new; tx_curr] → de_code de' = Some code' →
                        slash_free code') →
          m = disaggregate_mapping (concept_url "TX_CURR") (concept_url "Age_15+")).
Proof.
  apply (X19_mapping_for_every_pair sample_concept_reference_json sample_repos
           shared_export [tx_new; tx_curr] tx_curr "TX_CURR"
           (sample_coc "c1bis" "Age_15+" "15 and over") "Age_15+"
           {| num_indicators := 2; num_disaggregates := 1; num_mappings := 2;
              num_indicator_refs := 2; num_disaggregate_refs := 1 |}).
  - reflexivity.
  - apply run_returned. vm_compute. reflexivity.
  - repeat constructor.
  - reflexivity.
  - repeat constructor.
  - reflexivity.
Defined.

Lemma X20_well_formed_export_returns_witness :
  ∃ c snapshot', sample_run single_export empty_snapshot = (inr c, snapshot').
Proof.
  apply (X20_well_formed_export_returns sample_concept_reference_json sample_repos).
  - intros id repo H. unfold sample_repos in H.
    apply lookup_singleton_Some in H as [_ <-]. simpl. eauto.
  - exists [tx_new]. split; [reflexivity|].
    repeat constructor; simpl; eauto 10.
    + exists {| categoryOptionCombos := Some [sample_coc "c1" "Age_15+" "15+"] |},
        [sample_coc "c1" "Age_15+" "15+"].
      repeat split; try reflexivity.
      repeat constructor; simpl; eauto.
    + exists [sample_link "dsA"]. split; [reflexivity|].
      repeat constructor. exists {| ds_id := Some "dsA" |}. simpl. eauto.
Defined.

Lemma X21_server_settings_witness :
  ∃ s, DatimSyncMer.script_settings "dev" "dev" "dev"
         ["datimsyncmer.py"; "true"] sample_environ = inr s.
Proof.
  destruct (X21_server_settings "dev" "dev" "dev" ["datimsyncmer.py"; "true"]
              sample_environ "true") as [H _].
  - reflexivity.
  - left. reflexivity.
  - apply H. repeat constructor; vm_compute; eauto.
Defined.

Lemma X22_development_settings_witness :
  DatimSyncMer.script_settings "dev" "dev" "dev" ["datimsyncmer.py"; "TRUE"]
    sample_environ
  = DatimSyncMer.script_settings "dev" "dev" "dev" ["datimsyncmer.py"; "TRUE"] ∅.
Proof.
  destruct (X22_development_settings "dev" "dev" "dev" ["datimsyncmer.py"; "TRUE"]
              sample_environ ∅) as [H _].
  - intros a [= <-]. split; discriminate.
  - exact H.
Defined.

End DatimSyncMerFacts.
